(** * The hierarchical process state store of robo.js

    A shallow embedding of [packages/robo/src/core/state.ts]: the global
    state table, state forks, the instance sanitizer [removeInstances],
    the persistence path of [setState] and the save protocol of
    [getStateSave], followed by the properties proved about them. *)

From Stdlib Require Import ZArith Lia Ascii String.
From stdpp Require Import base option list strings pretty gmap fin_maps.

Local Open Scope string_scope.
Local Open Scope list_scope.
#[local] Set Warnings "-register-all".

(** ** Runtime values *)

(** The values the store holds are of TypeScript type [unknown].  The
    sanitizer tells them apart by [typeof], by [Array.isArray] and by
    [value.constructor.name]; the embedding keeps what those tests read.

    - [ctor] of an array or object is what [value.constructor.name]
      evaluates to: [Some n] for the name [n], and [None] when
      [value.constructor] is [undefined] or [null] (an object without
      prototype, as [Object.create(null)] builds it), in which case
      reading [.name] throws a [TypeError].
    - [fields] are the enumerable properties in the order [for .. in]
      visits them.
    - values are finite trees: a value that contains itself is outside
      the embedding.
    - values are data: the properties an object holds or inherits are
      writable data properties and the object is extensible, so that
      reading or assigning through it runs no code of its own and does
      not throw.
    - the payload of a number is never inspected by this module. *)
Inductive value : Type :=
  | VUndefined
  | VNull
  | VBool (b : bool)
  | VNumber (n : Z)
  | VString (s : string)
  | VFunction (name : string)
  | VArray (ctor : option string) (items : list value)
  | VObject (ctor : option string) (fields : list (string * value)).

(** [item !== undefined] *)
Definition is_defined (v : value) : bool :=
  match v with
  | VUndefined => false
  | _ => true
  end.

(** Induction over a value and the values nested in it. *)
Section ValueInduction.

Variable P : value -> Prop.
Hypothesis Hundefined : P VUndefined.
Hypothesis Hnull : P VNull.
Hypothesis Hbool : forall b, P (VBool b).
Hypothesis Hnumber : forall n, P (VNumber n).
Hypothesis Hstring : forall s, P (VString s).
Hypothesis Hfunction : forall name, P (VFunction name).
Hypothesis Harray : forall ctor items, Forall P items -> P (VArray ctor items).
Hypothesis Hobject :
  forall ctor fields, Forall (fun kv => P kv.2) fields -> P (VObject ctor fields).

Fixpoint value_nested_ind (v : value) : P v :=
  match v with
  | VUndefined => Hundefined
  | VNull => Hnull
  | VBool b => Hbool b
  | VNumber n => Hnumber n
  | VString s => Hstring s
  | VFunction name => Hfunction name
  | VArray ctor items =>
      Harray ctor items
        ((fix all (l : list value) : Forall P l :=
            match l with
            | [] => Forall_nil_2 P
            | x :: rest => Forall_cons_2 P x rest (value_nested_ind x) (all rest)
            end) items)
  | VObject ctor fields =>
      Hobject ctor fields
        ((fix all (l : list (string * value)) : Forall (fun kv => P kv.2) l :=
            match l with
            | [] => Forall_nil_2 _
            | (key, x) :: rest =>
                Forall_cons_2 (fun kv => P kv.2) (key, x) rest (value_nested_ind x) (all rest)
            end) fields)
  end.

End ValueInduction.

(** ** Prototypes *)

(** The prototype of an object that starts as [{}]: [Object.prototype],
    until an assignment under the key [__proto__] replaces it by [null]
    or by a value. *)
Inductive prototype : Type :=
  | Object_prototype
  | Null_prototype
  | Value_prototype (v : value).

(** [typeof v === 'object' && v !== null || typeof v === 'function']:
    what the setter of [__proto__] accepts as a prototype besides
    [null]. *)
Definition is_object (v : value) : bool :=
  match v with
  | VFunction _ | VArray _ _ | VObject _ _ => true
  | _ => false
  end.

(** The methods of [Object.prototype]; it holds [constructor] and the
    accessor [__proto__] besides. *)
Definition Object_prototype_methods : list string :=
  ["__defineGetter__"; "__defineSetter__"; "hasOwnProperty"; "__lookupGetter__";
   "__lookupSetter__"; "isPrototypeOf"; "propertyIsEnumerable"; "toString";
   "valueOf"; "toLocaleString"].

(** The names of all properties of [Object.prototype]. *)
Definition Object_prototype_keys : list string :=
  "__proto__" :: "constructor" :: Object_prototype_methods.

(** [Object.prototype] as a value: its constructor is [Object] and it
    has no enumerable property. *)
Definition Object_prototype_value : value := VObject (Some "Object") [].

(** [Object.prototype[key]] for a key other than [__proto__]. *)
Definition Object_prototype_member (key : string) : value :=
  if bool_decide (key = "constructor") then VFunction "Object"
  else if bool_decide (key ∈ Object_prototype_methods) then VFunction key
  else VUndefined.

(** The enumerable properties of a value, as [for .. in] visits them. *)
Definition enumerable (v : value) : list (string * value) :=
  match v with
  | VObject _ fields => fields
  | VArray _ items => imap (fun i item => (pretty i, item)) items
  | _ => []
  end.

(** [v.constructor.name] of an array, object or function, [None] when
    it throws. *)
Definition ctor_of (v : value) : option string :=
  match v with
  | VObject ctor _ | VArray ctor _ => ctor
  | VFunction _ => Some "Function"
  | _ => None
  end.

(** [v[key]] where [key] is an enumerable property of [v].  For any
    other key the result depends on what [v] holds out of sight of
    [for .. in] and on its prototype, which a value does not record:
    [None]. *)
Definition field_of (key : string) (v : value) : option value :=
  snd <$> List.find (fun kv => String.eqb kv.1 key) (enumerable v).

(** ** The sanitizer monad *)

(** [removeInstances] threads two pieces of state through its recursion:
    the [warned] object ([{ value: false }] by default) and the output of
    [logger.warn].  It can also be left by an exception. *)
Inductive exn : Type :=
  | TypeError (msg : string).

Record san_state : Type := SanState {
  warned : bool;
  warnings : list value
}.

Inductive outcome (A : Type) : Type :=
  | Returned (a : A)
  | Thrown (e : exn).
Arguments Returned {A} a.
Arguments Thrown {A} e.

Definition San (A : Type) : Type := san_state -> outcome A * san_state.

Definition ret {A} (a : A) : San A := fun s => (Returned a, s).

Definition bind {A B} (m : San A) (k : A -> San B) : San B :=
  fun s =>
    match m s with
    | (Returned a, s') => k a s'
    | (Thrown e, s') => (Thrown e, s')
    end.

Definition throw {A} (e : exn) : San A := fun s => (Thrown e, s).

Notation "'let*' x ':=' m 'in' k" := (bind m (fun x => k))
  (at level 10, x name, m at level 100, k at level 200).
Notation "'do*' m 'in' k" := (bind m (fun _ => k))
  (at level 10, m at level 100, k at level 200).

(** ** removeInstances *)

Definition builtInTypes : list string :=
  ["String"; "Number"; "Boolean"; "Array"; "Object"].

(** [builtInTypes.includes(name)] *)
Definition includes (names : list string) (name : string) : bool :=
  bool_decide (name ∈ names).

(** [value.constructor.name] *)
Definition constructor_name (ctor : option string) : San string :=
  match ctor with
  | Some n => ret n
  | None => throw (TypeError "Cannot read properties of undefined (reading 'name')")
  end.

(** [if (!warned.value) { logger.warn(.., value); warned.value = true }] *)
Definition warn_once (v : value) : San unit :=
  fun s =>
    if warned s then (Returned tt, s)
    else (Returned tt, SanState true (warnings s ++ [v])).

(** The two loops of [removeInstances], over the function applied to
    each element. *)
Section Loops.

Variable sanitize : value -> San value.

(** [value.map((item) => removeInstances(item, warned))] *)
Fixpoint map_items (l : list value) : San (list value) :=
  match l with
  | [] => ret []
  | item :: rest =>
      let* item' := sanitize item in
      let* rest' := map_items rest in
      ret (item' :: rest')
  end.

(** [result[key] = processedValue] on the object that started as [{}]:
    [result] are its own fields in the order of assignment, [proto] its
    prototype.  Under the key [__proto__], which [Object.prototype]
    holds as an accessor, the setter runs instead: it replaces the
    prototype by [null] or an object and ignores any other value.  A
    loop visits a key once, so the setter is not reached again after the
    prototype was replaced. *)
Definition assign_field (key : string) (processedValue : value)
    (result : list (string * value)) (proto : prototype)
    : list (string * value) * prototype :=
  match proto with
  | Object_prototype =>
      if String.eqb key "__proto__" then
        match processedValue with
        | VNull => (result, Null_prototype)
        | _ => if is_object processedValue
               then (result, Value_prototype processedValue)
               else (result, proto)
        end
      else (result ++ [(key, processedValue)], proto)
  | _ => (result ++ [(key, processedValue)], proto)
  end.

(** [for (const key in value) { .. result[key] = processedValue .. }] *)
Fixpoint for_in (l : list (string * value)) (result : list (string * value))
    (proto : prototype) : San (list (string * value) * prototype) :=
  match l with
  | [] => ret (result, proto)
  | (key, field) :: rest =>
      let* processedValue := sanitize field in
      if is_defined processedValue
      then let '(result', proto') := assign_field key processedValue result proto in
           for_in rest result' proto'
      else for_in rest result proto
  end.

End Loops.

(** The object the loop has filled, as a value: what its constructor is
    called and what [for .. in] visits, its own fields and then the
    enumerable ones of a prototype that is a value. *)
Definition object_value (result : list (string * value)) (proto : prototype) : value :=
  match proto with
  | Object_prototype => VObject (Some "Object") result
  | Null_prototype => VObject None result
  | Value_prototype parent =>
      VObject (ctor_of parent)
        (result ++ filter (fun kv => kv.1 ∉ result.*1) (enumerable parent))
  end.

(** The body of [removeInstances(value, warned)].  The array branch is
    [value.map(..).filter((item) => item !== undefined)]: every element
    is processed before any is dropped.  The object branch copies the
    surviving fields into a fresh object. *)
Fixpoint removeInstances_in (v : value) : San value :=
  match v with
  | VFunction _ => ret VUndefined
  | VArray ctor items =>
      let* name := constructor_name ctor in
      if negb (includes builtInTypes name) then
        do* warn_once v in ret VUndefined
      else
        let* mapped := map_items removeInstances_in items in
        ret (VArray (Some "Array") (filter (fun item => is_defined item = true) mapped))
  | VObject ctor fields =>
      let* name := constructor_name ctor in
      if negb (includes builtInTypes name) then
        do* warn_once v in ret VUndefined
      else
        let* result := for_in removeInstances_in fields [] Object_prototype in
        ret (object_value result.1 result.2)
  | _ => ret v
  end.

(** A call [removeInstances(value)] without second argument starts from
    a fresh [{ value: false }]; [log] is what the logger has printed so
    far. *)
Definition removeInstances (v : value) (log : list value) : outcome value * list value :=
  let '(r, s) := removeInstances_in v (SanState false log) in (r, warnings s).

(** ** Options and forks *)

(** [SetStateOptions] and [StateOptions] have the same shape: one
    optional boolean. *)
Record StateOptions : Type := Options {
  persist : option bool
}.
Definition SetStateOptions : Type := StateOptions.

(** [a ?? b] *)
Definition nullish {A} (a b : option A) : option A :=
  match a with
  | Some x => Some x
  | None => b
  end.

(** [options?.persist] *)
Definition persist_of (options : option StateOptions) : option bool :=
  match options with
  | Some o => persist o
  | None => None
  end.

(** [if (persist)] on a value that is a boolean or [undefined] *)
Definition truthy (b : option bool) : bool :=
  match b with
  | Some true => true
  | _ => false
  end.

(** An instance of class [State]. *)
Record State : Type := new_State {
  _prefix : string;
  _options : option StateOptions
}.

(** The template literal [`${a}__${b}`]. *)
Definition separator : string := "__".
Definition template (a b : string) : string := a +:+ separator +:+ b.

(** ** The process *)

(** *** Objects used as tables *)

(** An object that started as [{}] and is used as a table, as [state]
    and [persistedState] are: its own properties, all enumerable and
    writable since assignment made them, and its prototype.

    [Beyond] is a table of which the embedding does not say what it
    holds: it arises from an assignment under [__proto__] after a value
    has become the prototype, where the outcome depends on whether the
    prototype of that value still ends in [Object.prototype]. *)
Inductive table : Type :=
  | Table (own : gmap string value) (proto : prototype)
  | Beyond.

(** What a key that is not an own property reads as.  [None]: the
    embedding does not determine it, see [field_of]. *)
Definition inherited (proto : prototype) (key : string) : option value :=
  match proto with
  | Object_prototype =>
      Some (if String.eqb key "__proto__" then Object_prototype_value
            else Object_prototype_member key)
  | Null_prototype => Some VUndefined
  | Value_prototype parent => field_of key parent
  end.

(** [table[key]], [None] where the embedding does not determine it. *)
Definition table_get (key : string) (t : table) : option value :=
  match t with
  | Table own proto =>
      match own !! key with
      | Some v => Some v
      | None => inherited proto key
      end
  | Beyond => None
  end.

(** [table[key] = v].  An own property is overwritten.  Otherwise the
    key is looked for along the prototypes: every property found there
    is a writable data property, so that the key is added to the table,
    except [__proto__] of [Object.prototype], an accessor whose setter
    replaces the prototype of the table by [v] when [v] is [null] or an
    object and does nothing for any other [v].  A value that has become
    the prototype shadows that accessor when it has a field
    [__proto__]. *)
Definition table_set (key : string) (v : value) (t : table) : table :=
  match t with
  | Table own proto =>
      if String.eqb key "__proto__" then
        match own !! key with
        | Some _ => Table (<[key := v]> own) proto
        | None =>
            match proto with
            | Object_prototype =>
                match v with
                | VNull => Table own Null_prototype
                | _ => if is_object v then Table own (Value_prototype v) else t
                end
            | Null_prototype => Table (<[key := v]> own) proto
            | Value_prototype parent =>
                match field_of key parent with
                | Some _ => Table (<[key := v]> own) proto
                | None => Beyond
                end
            end
        end
      else Table (<[key := v]> own) proto
  | Beyond => Beyond
  end.

(** [Object.keys(table).forEach((key) => { delete table[key] })]: the
    own properties go, the prototype stays. *)
Definition table_clear (t : table) : table :=
  match t with
  | Table own proto =>
      Table (foldl (fun m key => delete key m) own (map fst (map_to_list own))) proto
  | Beyond => Beyond
  end.

(** The own properties of a table that started as a plain object with
    the own properties [own], after [table[key] = v]. *)
Definition assigned (key : string) (v : value) (own : gmap string value)
    : gmap string value :=
  match table_set key v (Table own Object_prototype) with
  | Table own' _ => own'
  | Beyond => own
  end.

(** Modelled from the spec: the durable backend [Flashcore] and the key
    [FLASHCORE_KEYS.state] (./flashcore.js and ./constants.js are not
    part of the sources at hand).  The backend is an opaque key-value
    store with an asynchronous [get] and [set], used under exactly one
    well-known key, whose value is the whole persisted snapshot, a
    mapping: it keeps the own properties of the object handed to [set]
    and [get] returns a plain object with these; [None] is the absent
    snapshot.  A read-modify-write started by [setState] is suspended at
    [await Flashcore.get(..)]; it is resumed with the snapshot the
    backend holds at that moment and calls [Flashcore.set] with the
    modified snapshot, which lands in the backend later. *)
Inductive persist_task : Type :=
  | AwaitingGet (key : string) (v : value)
  | Setting (persistedState : gmap string value)
  | Finished.

(** Modelled from the spec: [RoboMessage] and [RoboStateMessage]
    (../types/index.js is not part of the sources at hand), a tagged
    union [{type, state?}]. *)
Record RoboMessage : Type := Message {
  msg_type : string;
  msg_state : option (gmap string value)
}.

(** What [saveState] hands to [process.send]: the type and the [state]
    object itself. *)
Record outgoing : Type := Outgoing {
  outgoing_type : string;
  outgoing_state : table
}.

(** What the module reads and writes: the exported [state] object, the
    static [State._prefixes] set (a JavaScript [Set] keeps insertion
    order), the backend with the pending read-modify-writes, and the
    messages handed to [process.send]. *)
Record World : Type := mkWorld {
  state : table;
  State_prefixes : list string;
  durable : option (gmap string value);
  tasks : list persist_task;
  outbox : list outgoing
}.

Definition initial : World := mkWorld (Table ∅ Object_prototype) [] None [] [].

Definition with_state (m : table) (w : World) : World :=
  mkWorld m (State_prefixes w) (durable w) (tasks w) (outbox w).
Definition with_prefixes (p : list string) (w : World) : World :=
  mkWorld (state w) p (durable w) (tasks w) (outbox w).
Definition with_durable (d : option (gmap string value)) (w : World) : World :=
  mkWorld (state w) (State_prefixes w) d (tasks w) (outbox w).
Definition with_tasks (t : list persist_task) (w : World) : World :=
  mkWorld (state w) (State_prefixes w) (durable w) t (outbox w).
Definition with_outbox (o : list outgoing) (w : World) : World :=
  mkWorld (state w) (State_prefixes w) (durable w) (tasks w) o.

(** *** The global state table *)

(** [state[key]]: an own property of the table or what its prototype
    supplies, [undefined] if neither has the key.  [None] where the
    embedding does not determine the result, see [table_get]. *)
Definition getState (key : string) (w : World) : option value :=
  table_get key (state w).

(** [setState(key, value, options)] up to the point where
    [persistState()] is suspended at its [await]. *)
Definition setState (key : string) (v : value) (options : option SetStateOptions)
    (w : World) : World :=
  let persist := persist_of (nullish options (Some (Options None))) in
  let w := with_state (table_set key v (state w)) w in
  if truthy persist then with_tasks (tasks w ++ [AwaitingGet key v]) w else w.

(** [Object.keys(state).forEach((key) => { delete state[key] })] *)
Definition clearState (w : World) : World :=
  with_state (table_clear (state w)) w.

(** [Object.keys(savedState).forEach((key) => { state[key] = savedState[key] })];
    [savedState] is given by its own enumerable properties, which are
    what [Object.keys] lists and what the loop reads. *)
Definition loadState (savedState : gmap string value) (w : World) : World :=
  with_state (foldl (fun t kv => table_set kv.1 kv.2 t) (state w) (map_to_list savedState)) w.

(** [process.send({ type: 'state-save', state })] *)
Definition saveState (w : World) : World :=
  with_outbox (outbox w ++ [Outgoing "state-save" (state w)]) w.

(** *** The persistence path after the [await] *)

(** The rest of [persistState] for the [i]-th read-modify-write:
    [persistedState = (await Flashcore.get(..)) ?? {}], then
    [persistedState[key] = value], then [Flashcore.set(.., persistedState)]. *)
Definition resume_persist (i : nat) (w : World) : World :=
  match tasks w !! i with
  | Some (AwaitingGet key v) =>
      let persistedState := default ∅ (durable w) in
      let persistedState := assigned key v persistedState in
      with_tasks (<[i := Setting persistedState]> (tasks w)) w
  | _ => w
  end.

(** The write of the [i]-th read-modify-write reaches the backend. *)
Definition land_persist (i : nat) (w : World) : World :=
  match tasks w !! i with
  | Some (Setting persistedState) =>
      with_tasks (<[i := Finished]> (tasks w)) (with_durable (Some persistedState) w)
  | _ => w
  end.

(** The persisted snapshot as a reader of the backend sees it. *)
Definition snapshot (w : World) : gmap string value := default ∅ (durable w).

(** *** Forks *)

(** [static fork(prefix, options)] *)
Definition State_fork (prefix : string) (options : option StateOptions) (w : World)
    : State * World :=
  let added := if bool_decide (prefix ∈ State_prefixes w) then State_prefixes w
               else State_prefixes w ++ [prefix] in
  (new_State prefix options, with_prefixes added w).

(** [static listForks()] *)
Definition State_listForks (w : World) : list string := State_prefixes w.

(** [fork(prefix, options)] on an instance *)
Definition State_prototype_fork (this : State) (prefix : string)
    (options : option StateOptions) : State :=
  new_State (template (_prefix this) prefix) options.

(** [getState(key)] on an instance *)
Definition State_prototype_getState (this : State) (key : string) (w : World)
    : option value :=
  getState (template (_prefix this) key) w.

(** The options object an instance hands to the global [setState]:
    [{ ...(options ?? {}), persist: options?.persist ?? this._options?.persist }] *)
Definition effective_options (this : State) (options : option SetStateOptions)
    : SetStateOptions :=
  Options (nullish (persist_of options) (persist_of (_options this))).

(** [setState(key, value, options)] on an instance *)
Definition State_prototype_setState (this : State) (key : string) (v : value)
    (options : option SetStateOptions) (w : World) : World :=
  setState (template (_prefix this) key) v (Some (effective_options this options)) w.

(** *** Runs of the process *)

Inductive action : Type :=
  | Call_setState (key : string) (v : value) (options : option SetStateOptions)
  | Call_fork_setState (this : State) (key : string) (v : value)
      (options : option SetStateOptions)
  | Call_clearState
  | Call_loadState (savedState : gmap string value)
  | Call_saveState
  | Resume (i : nat)
  | Land (i : nat).

Definition step (w : World) (a : action) : World :=
  match a with
  | Call_setState key v options => setState key v options w
  | Call_fork_setState this key v options => State_prototype_setState this key v options w
  | Call_clearState => clearState w
  | Call_loadState savedState => loadState savedState w
  | Call_saveState => saveState w
  | Resume i => resume_persist i w
  | Land i => land_persist i w
  end.

Definition run (sched : list action) (w : World) : World := foldl step w sched.

(** ** The save protocol *)

(** A fault reported by the channel (the argument of the ['error']
    event). *)
Inductive fault : Type :=
  | Fault (reason : string).

(** The promise [getStateSave] returns.  A promise settles once: later
    calls of [resolve] or [reject] change nothing. *)
Inductive promise : Type :=
  | Pending
  | Resolved (payload : option (gmap string value))
  | Rejected (error : fault).

(** What the call does to the child process handle and to its promise,
    in program order. *)
Inductive effect : Type :=
  | On_message
  | Once_error
  | Send (message : RoboMessage)
  | Off_message
  | Resolve (payload : option (gmap string value))
  | Reject (error : fault).

(** The part of a [ChildProcess] the call touches: whether
    [messageListener] is registered for ['message'], whether the
    one-shot handler is registered for ['error'], and what was sent. *)
Record ChildProcess : Type := mkProcess {
  message_listener : bool;
  error_listener : bool;
  sent : list RoboMessage
}.

Record save_call : Type := mkSave {
  botProcess : option ChildProcess;
  result : promise;
  trace : list effect
}.

Definition perform (e : effect) (c : save_call) : save_call :=
  let on_process f := match botProcess c with Some p => Some (f p) | None => None end in
  match e with
  | On_message =>
      mkSave (on_process (fun p => mkProcess true (error_listener p) (sent p)))
             (result c) (trace c ++ [e])
  | Once_error =>
      mkSave (on_process (fun p => mkProcess (message_listener p) true (sent p)))
             (result c) (trace c ++ [e])
  | Send m =>
      mkSave (on_process (fun p => mkProcess (message_listener p) (error_listener p) (sent p ++ [m])))
             (result c) (trace c ++ [e])
  | Off_message =>
      mkSave (on_process (fun p => mkProcess false (error_listener p) (sent p)))
             (result c) (trace c ++ [e])
  | Resolve payload =>
      mkSave (botProcess c)
             (match result c with Pending => Resolved payload | settled => settled end)
             (trace c ++ [e])
  | Reject error =>
      mkSave (botProcess c)
             (match result c with Pending => Rejected error | settled => settled end)
             (trace c ++ [e])
  end.

(** [message.type === 'state-load' || message.type === 'state-save'] *)
Definition isStateMessage (message : RoboMessage) : bool :=
  String.eqb (msg_type message) "state-load" || String.eqb (msg_type message) "state-save".

(** [getStateSave(botProcess)] up to its [return]. *)
Definition getStateSave (botProcess : option ChildProcess) : save_call :=
  match botProcess with
  | None => mkSave None (Resolved (Some ∅)) []
  | Some p =>
      perform (Send (Message "state-save" None))
        (perform Once_error
          (perform On_message (mkSave (Some p) Pending [])))
  end.

(** The closure [messageListener]. *)
Definition messageListener (message : RoboMessage) (c : save_call) : save_call :=
  if isStateMessage message
  then perform (Resolve (msg_state message)) (perform Off_message c)
  else c.

(** The closure passed to [botProcess.once('error', ..)]. *)
Definition errorListener (error : fault) (c : save_call) : save_call :=
  perform (Reject error) (perform Off_message c).

(** What the channel delivers afterwards. *)
Inductive event : Type :=
  | Ev_message (message : RoboMessage)
  | Ev_error (error : fault).

(** The process emits an event: the listeners registered for it run.  A
    [once] handler is taken off before it runs. *)
Definition emit (c : save_call) (ev : event) : save_call :=
  match botProcess c, ev with
  | Some p, Ev_message message =>
      if message_listener p then messageListener message c else c
  | Some p, Ev_error error =>
      if error_listener p
      then errorListener error
             (mkSave (Some (mkProcess (message_listener p) false (sent p))) (result c) (trace c))
      else c
  | None, _ => c
  end.

Definition deliver (events : list event) (c : save_call) : save_call := foldl emit c events.

(** ** Prefix paths *)

(** A prefix path is a root prefix given to the static [fork] followed
    by the local prefixes of a chain of instance [fork] calls. *)
Definition fork_chain (root : State) (locals : list string) : State :=
  foldl (fun s local => State_prototype_fork s local None) root locals.

(** The key under which a fork reads and writes [key]. *)
Definition qualified_key (this : State) (key : string) : string :=
  template (_prefix this) key.

(** The segments of a path joined by the separator. *)
Fixpoint join (root : string) (rest : list string) : string :=
  match rest with
  | [] => root
  | s :: rest' => root +:+ separator +:+ join s rest'
  end.

(** A segment in which every underscore is followed by a character other
    than an underscore: it neither contains the separator nor ends in an
    underscore. *)
Fixpoint plain_segment (s : string) : bool :=
  match s with
  | EmptyString => true
  | String c rest =>
      if Ascii.eqb c "_"%char then
        match rest with
        | EmptyString => false
        | String c' _ => negb (Ascii.eqb c' "_"%char) && plain_segment rest
        end
      else plain_segment rest
  end.

(** Cuts a string at the first occurrence of the separator. *)
Fixpoint cut (s : string) : string * option string :=
  match s with
  | EmptyString => (EmptyString, None)
  | String c rest =>
      match rest with
      | String c' rest' =>
          if Ascii.eqb c "_"%char && Ascii.eqb c' "_"%char then (EmptyString, Some rest')
          else let '(head, tail) := cut rest in (String c head, tail)
      | EmptyString => (String c EmptyString, None)
      end
  end.

(** A path all of whose segments are plain. *)
Definition plain_path (root : string) (rest : list string) : Prop :=
  Forall (fun s => plain_segment s = true) (root :: rest).

(** ** Schedules *)

(** The action lets a write reach the backend. *)
Definition is_land (a : action) : bool :=
  match a with
  | Land _ => true
  | _ => false
  end.

(** The action advances the [i]-th read-modify-write. *)
Definition advances (i : nat) (a : action) : bool :=
  match a with
  | Resume j | Land j => bool_decide (i = j)
  | _ => false
  end.

(** The action writes [key] into the global state table. *)
Definition writes (key : string) (a : action) : bool :=
  match a with
  | Call_setState k _ _ => bool_decide (k = key)
  | Call_fork_setState this k _ _ => bool_decide (template (_prefix this) k = key)
  | Call_loadState savedState => bool_decide (is_Some (savedState !! key))
  | _ => false
  end.

(** Every array and object inside the value has a constructor. *)
Fixpoint has_constructors (v : value) : bool :=
  match v with
  | VArray ctor items =>
      bool_decide (is_Some ctor) && forallb has_constructors items
  | VObject ctor fields =>
      bool_decide (is_Some ctor) && forallb (fun '(_, x) => has_constructors x) fields
  | _ => true
  end.

(** ** Sanitizer passes *)

(** From [s] to [s'] at most one warning was logged, and none if the
    flag was already set. *)
Definition at_most_one_warning (s s' : san_state) : Prop :=
  s' = s \/ (warned s = false /\ exists offending, s' = SanState true (warnings s ++ [offending])).

(** The computation comes back with a value instead of throwing. *)
Definition returns {A} (m : San A) : Prop :=
  forall s, exists a s', m s = (Returned a, s').

(** ** Events of the channel *)

(** The event is one the pending save reacts to: a state message or a
    fault. *)
Definition settles (ev : event) : bool :=
  match ev with
  | Ev_message message => isStateMessage message
  | Ev_error _ => true
  end.

(** ** Shapes of values *)

(** An array or object that [removeInstances] takes for a class
    instance: its constructor has a name outside [builtInTypes]. *)
Definition is_instance (v : value) : bool :=
  match v with
  | VArray (Some name) _ | VObject (Some name) _ => negb (includes builtInTypes name)
  | _ => false
  end.

(** The walk of [removeInstances] comes to an array or object without
    constructor: it goes through the elements and fields of built-in
    containers, in order, and does not look inside an instance. *)
Fixpoint reaches_bare (v : value) : bool :=
  match v with
  | VArray ctor items =>
      match ctor with
      | None => true
      | Some name => includes builtInTypes name && existsb reaches_bare items
      end
  | VObject ctor fields =>
      match ctor with
      | None => true
      | Some name =>
          includes builtInTypes name && existsb (fun '(_, x) => reaches_bare x) fields
      end
  | _ => false
  end.

(** ** Sequences of calls *)

(** [State.fork(prefix)] for each prefix in turn. *)
Definition State_fork_each (prefixes : list string) (w : World) : World :=
  foldl (fun w prefix => (State_fork prefix None w).2) w prefixes.


(** ** Outcomes and logs *)

(** The outcome is an exception exactly when [b] holds. *)
Definition thrown_when {A} (o : outcome A) (b : bool) : Prop :=
  match o with
  | Returned _ => b = false
  | Thrown _ => b = true
  end.

(** From [s] to [s'] the logger has printed class instances only. *)
Definition logged_instances (s s' : san_state) : Prop :=
  exists added, warnings s' = warnings s ++ added /\
    Forall (fun x => is_instance x = true) added.

(** ** States of a pending save *)

(** The listeners of the call are in step with its promise: both are
    registered while it is pending, the message listener is off once it
    is settled, and after a fault the one-shot handler is gone too.
    [request] is what the worker was sent. *)
Definition listeners_in_step (request : list RoboMessage) (c : save_call) : Prop :=
  exists p, botProcess c = Some p /\ sent p = request /\
    match result c with
    | Pending => message_listener p = true /\ error_listener p = true
    | Resolved _ => message_listener p = false
    | Rejected _ => message_listener p = false /\ error_listener p = false
    end.

(** ** The command line *)

(** The argument handling of class [Command]: [splitArgs] and
    [parseOptions].  Strings are sequences of code units. *)
Module Cli.

(** [interface Option] *)
Record Option : Type := mkOption {
  alias : string;
  name : string;
  description : string
}.

(** [s.startsWith(prefix)] *)
Definition startsWith (s prefix : string) : bool := String.prefix prefix s.

(** [s.slice(n)] *)
Fixpoint slice (n : nat) (s : string) : string :=
  match n, s with
  | S n', String _ rest => slice n' rest
  | _, _ => s
  end.

(** The loop of [splitArgs]: [i] counts the arguments passed over,
    [rest] are the arguments from [i] on.  It returns [positionalArgs]
    and [optionsArgsStart]. *)
Fixpoint splitArgs_loop (rest : list string) (i : nat) (positionalArgs : list string)
    : list string * nat :=
  match rest with
  | [] => (positionalArgs, i)
  | arg :: rest' =>
      if startsWith arg "-" then (positionalArgs, i)
      else splitArgs_loop rest' (S i) (positionalArgs ++ [arg])
  end.

(** [splitArgs(args)]; [optionsArgsStart] starts as [args.length], which
    is where the loop stops without a [break]. *)
Definition splitArgs (args : list string) : list string * list string :=
  let '(positionalArgs, optionsArgsStart) := splitArgs_loop args 0 [] in
  (positionalArgs, drop optionsArgsStart args).

(** What [parseOptions] stores for an option: the next argument or
    [true]. *)
Inductive option_value : Type :=
  | Given (value : string)
  | Flag.

(** [nextArg && !nextArg.startsWith('-')]: there is a next argument, it
    is not the empty string and it does not start with a dash. *)
Definition is_value (nextArg : string) : bool :=
  negb (String.eqb nextArg "") && negb (startsWith nextArg "-").

(** [options[key] = stored] on the object that started as [{}]: what is
    stored is a string or [true], which the setter of [__proto__]
    ignores. *)
Definition store (key : string) (stored : option_value)
    (options : gmap string option_value) : gmap string option_value :=
  if String.eqb key "__proto__" then options else <[key := stored]> options.

(** The loop of [parseOptions] over the arguments still to read; an
    argument taken as a value is skipped. *)
Fixpoint parseOptions_loop (_options : list Option) (args : list string)
    (options : gmap string option_value) : gmap string option_value :=
  match args with
  | [] => options
  | arg :: rest =>
      if startsWith arg "--" then
        match List.find (fun opt => String.eqb (name opt) arg) _options with
        | Some option =>
            match rest with
            | nextArg :: rest' =>
                if is_value nextArg
                then parseOptions_loop _options rest' (store (slice 2 arg) (Given nextArg) options)
                else parseOptions_loop _options rest (store (slice 2 arg) Flag options)
            | [] => parseOptions_loop _options rest (store (slice 2 arg) Flag options)
            end
        | None => parseOptions_loop _options rest options
        end
      else if startsWith arg "-" then
        match List.find (fun opt => String.eqb (alias opt) arg) _options with
        | Some option =>
            match rest with
            | nextArg :: rest' =>
                if is_value nextArg
                then parseOptions_loop _options rest'
                       (store (slice 2 (name option)) (Given nextArg) options)
                else parseOptions_loop _options rest
                       (store (slice 2 (name option)) Flag options)
            | [] => parseOptions_loop _options rest (store (slice 2 (name option)) Flag options)
            end
        | None => parseOptions_loop _options rest options
        end
      else parseOptions_loop _options rest options
  end.

(** [parseOptions(args)] of a command with the declared [_options]. *)
Definition parseOptions (_options : list Option) (args : list string)
    : gmap string option_value :=
  parseOptions_loop _options args ∅.

End Cli.

(** ** The help command *)

(** The default export of the help command.  [getManifest] is imported
    from the package; the command takes from it the names of
    [manifest.commands] in the order of [Object.keys] and the optional
    description of each. *)
Module Help.

Record Field : Type := mkField {
  name : string;
  value : string;
  inline : bool
}.

(** [description || fallback] on a string or [undefined]: the empty
    string is falsy. *)
Definition or_else (description : option string) (fallback : string) : string :=
  match description with
  | Some EmptyString | None => fallback
  | Some text => text
  end.

(** ['\u200b'], the zero-width space, in UTF-8. *)
Definition zero_width_space : string :=
  String (ascii_of_nat 226) (String (ascii_of_nat 128) (String (ascii_of_nat 139) EmptyString)).

(** [embeds[0].fields] *)
Definition fields (commands : list (string * option string)) : list Field :=
  map (fun '(command, description) =>
         mkField ("/" +:+ command) (or_else description "No description provided.") false)
      commands
  ++ [mkField zero_width_space "Powered by [**RoboPlay** ✨](https://roboplay.dev)" false].

End Help.

(** * Properties *)

(** ** Strings *)

Section Strings.


Lemma append_cons (x : ascii) (a b : string) : String x a +:+ b = String x (a +:+ b).
Proof. reflexivity. Qed.

Lemma append_assoc (a b c : string) : (a +:+ b) +:+ c = a +:+ (b +:+ c).
Proof.
  induction a as [|x a IH]; [reflexivity |].
  by rewrite !append_cons, IH.
Qed.



Lemma template_assoc (a b c : string) :
  template (template a b) c = template a (template b c).
Proof. unfold template. by rewrite !append_assoc. Qed.


End Strings.

(** ** Paths and their composed prefix *)

Section Paths.

Lemma join_template (a b : string) (rest : list string) :
  join (template a b) rest = template a (join b rest).
Proof.
  destruct rest as [|s rest]; simpl; [reflexivity |].
  fold (template b (join s rest)). fold (template (template a b) (join s rest)).
  apply template_assoc.
Qed.

Lemma fork_chain_prefix (root : State) (locals : list string) :
  _prefix (fork_chain root locals) = join (_prefix root) locals.
Proof.
  revert root. induction locals as [|l locals IH]; intros root; simpl.
  - reflexivity.
  - unfold fork_chain in IH. rewrite IH. simpl. apply join_template.
Qed.

Lemma join_snoc (root : string) (locals : list string) (key : string) :
  join root (locals ++ [key]) = template (join root locals) key.
Proof.
  revert root. induction locals as [|l locals IH]; intros root; simpl.
  - reflexivity.
  - rewrite IH. fold (template root (template (join l locals) key)).
    fold (template root (join l locals)). symmetry. apply template_assoc.
Qed.

Lemma qualified_key_join (root : State) (locals : list string) (key : string) :
  qualified_key (fork_chain root locals) key = join (_prefix root) (locals ++ [key]).
Proof. unfold qualified_key. by rewrite fork_chain_prefix, join_snoc. Qed.

Lemma cut_plain (s : string) : plain_segment s = true -> cut s = (s, None).
Proof.
  induction s as [|c s IH]; intros H; [reflexivity |].
  simpl in H. destruct s as [|c' s'].
  - reflexivity.
  - destruct (Ascii.eqb c "_") eqn:Hc.
    + apply andb_true_iff in H as [Hc' H].
      apply negb_true_iff in Hc'.
      change (cut (String c (String c' s')))
        with (if Ascii.eqb c "_" && Ascii.eqb c' "_" then (EmptyString, Some s')
              else let '(head, tail) := cut (String c' s') in (String c head, tail)).
      rewrite Hc, Hc'. simpl andb. cbv iota. by rewrite (IH H).
    + change (cut (String c (String c' s')))
        with (if Ascii.eqb c "_" && Ascii.eqb c' "_" then (EmptyString, Some s')
              else let '(head, tail) := cut (String c' s') in (String c head, tail)).
      rewrite Hc. simpl andb. cbv iota. by rewrite (IH H).
Qed.

Lemma cut_template (s r : string) :
  plain_segment s = true -> cut (template s r) = (s, Some r).
Proof.
  unfold template, separator.
  induction s as [|c s IH]; intros H; [reflexivity |].
  simpl in H.
  change (String c s +:+ "__" +:+ r) with (String c (s +:+ "__" +:+ r)).
  destruct s as [|c' s'].
  - destruct (Ascii.eqb c "_") eqn:Hc; [discriminate |].
    simpl. by rewrite Hc.
  - change (String c' s' +:+ "__" +:+ r) with (String c' (s' +:+ "__" +:+ r)) in *.
    change (cut (String c (String c' (s' +:+ "__" +:+ r))))
      with (if Ascii.eqb c "_" && Ascii.eqb c' "_"
            then (EmptyString, Some (s' +:+ "__" +:+ r))
            else let '(head, tail) := cut (String c' (s' +:+ "__" +:+ r))
                 in (String c head, tail)).
    destruct (Ascii.eqb c "_") eqn:Hc.
    + apply andb_true_iff in H as [Hc' H].
      apply negb_true_iff in Hc'.
      rewrite Hc'. simpl andb. cbv iota. by rewrite (IH H).
    + simpl andb. cbv iota. by rewrite (IH H).
Qed.

Lemma join_inj (root1 root2 : string) (rest1 rest2 : list string) :
  Forall (fun s => plain_segment s = true) (root1 :: rest1) ->
  Forall (fun s => plain_segment s = true) (root2 :: rest2) ->
  join root1 rest1 = join root2 rest2 ->
  root1 = root2 /\ rest1 = rest2.
Proof.
  revert root1 root2 rest2.
  induction rest1 as [|s1 rest1 IH]; intros root1 root2 [|s2 rest2] H1 H2 Heq;
    inversion H1 as [|? ? Hr1 Ht1]; inversion H2 as [|? ? Hr2 Ht2]; subst; simpl in Heq.
  - by split.
  - apply (f_equal cut) in Heq.
    fold (template root2 (join s2 rest2)) in Heq.
    rewrite (cut_plain _ Hr1), (cut_template _ _ Hr2) in Heq. discriminate.
  - apply (f_equal cut) in Heq.
    fold (template root1 (join s1 rest1)) in Heq.
    rewrite (cut_plain _ Hr2), (cut_template _ _ Hr1) in Heq. discriminate.
  - apply (f_equal cut) in Heq.
    fold (template root1 (join s1 rest1)) in Heq.
    fold (template root2 (join s2 rest2)) in Heq.
    rewrite (cut_template _ _ Hr1), (cut_template _ _ Hr2) in Heq.
    injection Heq as -> Heq.
    destruct (IH s1 s2 rest2 Ht1 Ht2 Heq) as [-> ->]. by split.
Qed.

End Paths.

(** ** Fork prefixes *)

Section ForkPrefixes.

(** Two different chains of forks can meet in one prefix, and so in
    one key: the root fork ["a__b"] and the fork ["b"] nested in the
    root fork ["a"]. *)
Lemma fork_prefix_paths_collide :
  ("a", ["b"]) <> ("a__b", @nil string) /\
  _prefix (fork_chain (new_State "a" None) ["b"])
    = _prefix (fork_chain (new_State "a__b" None) []) /\
  qualified_key (fork_chain (new_State "a" None) ["b"]) "k"
    = qualified_key (fork_chain (new_State "a__b" None) []) "k".
Proof. split; [discriminate | split; reflexivity]. Qed.

(** A segment ending in an underscore is enough to collide, although
    no segment contains the separator. *)
Example fork_prefix_underscore_boundary :
  _prefix (fork_chain (new_State "a_" None) ["b"])
    = _prefix (fork_chain (new_State "a" None) ["_b"]).
Proof. reflexivity. Qed.

(** C2, amended.  Composing fork prefixes is associative; and when
    every segment of two prefix paths and the two local keys are plain
    (no underscore is followed by an underscore or ends the segment),
    different paths compose to different prefixes and to different
    fully-qualified keys. *)
Theorem fork_prefix_composition
    (a b c : string)
    (root1 root2 : State) (locals1 locals2 : list string) (key1 key2 : string)
    (Hpath1 : plain_path (_prefix root1) (locals1 ++ [key1]))
    (Hpath2 : plain_path (_prefix root2) (locals2 ++ [key2]))
    (Hdiff : (_prefix root1, locals1) <> (_prefix root2, locals2)) :
  template (template a b) c = template a (template b c) /\
  _prefix (fork_chain root1 locals1) <> _prefix (fork_chain root2 locals2) /\
  qualified_key (fork_chain root1 locals1) key1
    <> qualified_key (fork_chain root2 locals2) key2.
Proof.
  split; [apply template_assoc |].
  assert (Hkeys : qualified_key (fork_chain root1 locals1) key1
                  <> qualified_key (fork_chain root2 locals2) key2).
  { rewrite !qualified_key_join. intros Heq.
    destruct (join_inj _ _ _ _ Hpath1 Hpath2 Heq) as [Hroot Hrest].
    apply app_inj_tail in Hrest as [Hlocals _].
    apply Hdiff. by rewrite Hroot, Hlocals. }
  split; [| exact Hkeys].
  rewrite !fork_chain_prefix. intros Heq.
  unfold plain_path in Hpath1, Hpath2.
  rewrite app_comm_cons in Hpath1, Hpath2.
  apply Forall_app in Hpath1 as [Hpath1 _].
  apply Forall_app in Hpath2 as [Hpath2 _].
  destruct (join_inj _ _ _ _ Hpath1 Hpath2 Heq) as [Hroot Hlocals].
  apply Hdiff. by rewrite Hroot, Hlocals.
Qed.

Lemma fork_prefix_composition_witness :
  plain_path "polls" (["detail"] ++ ["votes"]) /\
  plain_path "polls" (["summary"] ++ ["votes"]) /\
  template (template "a" "b") "c" = template "a" (template "b" "c") /\
  _prefix (fork_chain (new_State "polls" None) ["detail"])
    <> _prefix (fork_chain (new_State "polls" None) ["summary"]) /\
  qualified_key (fork_chain (new_State "polls" None) ["detail"]) "votes"
    <> qualified_key (fork_chain (new_State "polls" None) ["summary"]) "votes".
Proof.
  assert (H1 : plain_path "polls" (["detail"] ++ ["votes"]))
    by (repeat constructor).
  assert (H2 : plain_path "polls" (["summary"] ++ ["votes"]))
    by (repeat constructor).
  split; [exact H1 |]. split; [exact H2 |].
  apply (fork_prefix_composition "a" "b" "c"
           (new_State "polls" None) (new_State "polls" None)
           ["detail"] ["summary"] "votes" "votes" H1 H2).
  simpl. intros H. discriminate H.
Defined.

End ForkPrefixes.

(** ** The global state table *)

Section Table.

Lemma table_set_ordinary key v own proto :
  key <> "__proto__" ->
  table_set key v (Table own proto) = Table (<[key := v]> own) proto.
Proof.
  intros Hkey. unfold table_set. by rewrite (proj2 (String.eqb_neq _ _) Hkey).
Qed.

Lemma table_set_Beyond key v : table_set key v Beyond = Beyond.
Proof. reflexivity. Qed.

Lemma table_get_set_eq key v own proto :
  key <> "__proto__" -> table_get key (table_set key v (Table own proto)) = Some v.
Proof.
  intros Hkey. rewrite table_set_ordinary by done. simpl. by rewrite lookup_insert_eq.
Qed.

Lemma table_get_set_ne key key' v t :
  key <> "__proto__" -> key <> key' ->
  table_get key' (table_set key v t) = table_get key' t.
Proof.
  intros Hkey Hne. destruct t as [own proto|]; [| reflexivity].
  rewrite table_set_ordinary by done. simpl. by rewrite lookup_insert_ne.
Qed.

Lemma inherited_nothing key :
  key ∉ Object_prototype_keys -> inherited Object_prototype key = Some VUndefined.
Proof.
  intros Hkey. unfold Object_prototype_keys in Hkey.
  apply not_elem_of_cons in Hkey as [Hproto Hkey].
  apply not_elem_of_cons in Hkey as [Hctor Hkey].
  unfold inherited, Object_prototype_member.
  rewrite (proj2 (String.eqb_neq _ _) Hproto).
  by rewrite !bool_decide_eq_false_2.
Qed.

Lemma setState_state key v options w :
  state (setState key v options w) = table_set key v (state w).
Proof. unfold setState. by destruct (truthy _). Qed.

Lemma getState_setState_eq key v options w own proto :
  key <> "__proto__" -> state w = Table own proto ->
  getState key (setState key v options w) = Some v.
Proof.
  intros Hkey Hstate. unfold getState. rewrite setState_state, Hstate.
  by apply table_get_set_eq.
Qed.

Lemma getState_setState_ne key key' v options w :
  key <> "__proto__" -> key <> key' ->
  getState key' (setState key v options w) = getState key' w.
Proof.
  intros Hkey Hne. unfold getState. rewrite setState_state.
  by apply table_get_set_ne.
Qed.




End Table.

(** ** Options *)

Section OptionsOfForks.

Lemma persist_of_default (options : option SetStateOptions) :
  persist_of (nullish options (Some (Options None))) = persist_of options.
Proof. by destruct options. Qed.

Lemma setState_tasks key v options w :
  tasks (setState key v options w)
    = tasks w ++ (if truthy (persist_of options) then [AwaitingGet key v] else []).
Proof.
  unfold setState. rewrite persist_of_default.
  destruct (truthy (persist_of options)); simpl; [reflexivity | by rewrite app_nil_r].
Qed.

Lemma setState_durable key v options w :
  durable (setState key v options w) = durable w.
Proof. unfold setState. by destruct (truthy _). Qed.

(** C6.  A write through a fork persists when the call says so, else
    when the fork's own default says so, else not; and a
    read-modify-write of the backend is started exactly in that case. *)
Theorem fork_setState_effective_persist
    (this : State) (key : string) (v : value) (options : option SetStateOptions)
    (w : World) :
  let effective :=
    match persist_of options with
    | Some explicit => explicit
    | None =>
        match persist_of (_options this) with
        | Some default => default
        | None => false
        end
    end in
  truthy (persist (effective_options this options)) = effective /\
  tasks (State_prototype_setState this key v options w)
    = tasks w ++ (if effective then [AwaitingGet (template (_prefix this) key) v] else []) /\
  durable (State_prototype_setState this key v options w) = durable w.
Proof.
  intros effective.
  assert (Heff : truthy (persist (effective_options this options)) = effective).
  { unfold effective, effective_options. simpl.
    destruct (persist_of options) as [[|]|]; [reflexivity | reflexivity |].
    simpl. by destruct (persist_of (_options this)) as [[|]|]. }
  split; [exact Heff |].
  unfold State_prototype_setState. rewrite setState_tasks, setState_durable.
  change (persist_of (Some (effective_options this options)))
    with (persist (effective_options this options)).
  by rewrite Heff.
Qed.

(** An explicit [persist: false] overrides a fork created with
    [persist: true]. *)
Example fork_setState_explicit_false :
  tasks (State_prototype_setState (new_State "polls" (Some (Options (Some true))))
           "k" VNull (Some (Options (Some false))) initial) = [].
Proof. reflexivity. Qed.

(** A fork nested in a fork created with [persist: true] does not
    persist on its own: its options are the ones given to the instance
    [fork], here none. *)
Lemma nested_fork_does_not_inherit :
  let parent := (State_fork "polls" (Some (Options (Some true))) initial).1 in
  let child := State_prototype_fork parent "detail" None in
  persist_of (_options parent) = Some true /\
  _options child = None /\
  tasks (State_prototype_setState parent "k" VNull None initial)
    = [AwaitingGet "polls__k" VNull] /\
  tasks (State_prototype_setState child "k" VNull None initial) = [].
Proof. repeat split. Qed.

(** The registry after the same calls. *)
Example nested_fork_registry :
  let '(parent, w) := State_fork "polls" None initial in
  _prefix (State_prototype_fork parent "detail" None) = "polls__detail" /\
  State_listForks w = ["polls"].
Proof. split; reflexivity. Qed.

(** C3, amended.  The instance [fork] returns a fork whose prefix is the
    parent's prefix, the separator and the local prefix, and whose
    options are exactly the ones passed to the call: created without
    options, the child has no default of its own, and a write through it
    that names no [persist] starts no read-modify-write, whatever the
    options of the parent are. *)
Theorem instance_fork_prefix_and_options
    (this : State) (prefix : string) (options : option StateOptions)
    (key : string) (v : value) (w : World) :
  _prefix (State_prototype_fork this prefix options)
    = _prefix this +:+ "__" +:+ prefix /\
  _options (State_prototype_fork this prefix options) = options /\
  tasks (State_prototype_setState (State_prototype_fork this prefix None) key v None w)
    = tasks w.
Proof.
  split; [reflexivity |]. split; [reflexivity |].
  unfold State_prototype_setState. rewrite setState_tasks. simpl.
  apply app_nil_r.
Qed.

End OptionsOfForks.

(** ** Clearing, loading and reading the table *)

(** One goal for each kind of action, with the step unfolded. *)
Ltac action_cases a :=
  destruct a as [k v o|this k v o| |saved| |j|j];
  cbn [step writes is_land advances] in *.

Section TableContents.

Lemma delete_all_empty (keys : list string) (m : gmap string value) :
  (forall k, is_Some (m !! k) -> k ∈ keys) ->
  foldl (fun m key => delete key m) m keys = ∅.
Proof.
  revert m. induction keys as [|key keys IH]; intros m Hkeys; simpl.
  - apply map_empty. intros k. apply eq_None_not_Some. intros Hk.
    specialize (Hkeys k Hk). by apply elem_of_nil in Hkeys.
  - apply IH. intros k Hk.
    destruct (decide (key = k)) as [->|Hne].
    + rewrite lookup_delete_eq in Hk. by destruct Hk.
    + rewrite lookup_delete_ne in Hk by done.
      specialize (Hkeys k Hk). apply elem_of_cons in Hkeys as [->|Hin]; done.
Qed.

Lemma table_clear_Table (own : gmap string value) (proto : prototype) :
  table_clear (Table own proto) = Table ∅ proto.
Proof.
  unfold table_clear. f_equal. apply delete_all_empty.
  intros k [v Hv]. apply list_elem_of_fmap. exists (k, v).
  split; [reflexivity |]. by apply elem_of_map_to_list.
Qed.

Lemma clearState_state (w : World) own proto :
  state w = Table own proto -> state (clearState w) = Table ∅ proto.
Proof. intros Hstate. unfold clearState. simpl. rewrite Hstate. apply table_clear_Table. Qed.

Lemma insert_all_other (key : string) (l : list (string * value)) (m : gmap string value) :
  (forall v, (key, v) ∉ l) ->
  foldl (fun m kv => <[kv.1 := kv.2]> m) m l !! key = m !! key.
Proof.
  revert m. induction l as [|[k v] l IH]; intros m Hl; simpl; [reflexivity |].
  rewrite IH.
  - apply lookup_insert_ne. intros ->. apply (Hl v). apply elem_of_cons. by left.
  - intros v' Hin. apply (Hl v'). apply elem_of_cons. by right.
Qed.

Lemma insert_all_member (key : string) (v : value) (l : list (string * value))
    (m : gmap string value) :
  NoDup l.*1 -> (key, v) ∈ l ->
  foldl (fun m kv => <[kv.1 := kv.2]> m) m l !! key = Some v.
Proof.
  revert m. induction l as [|[k x] l IH]; intros m Hnd Hin; [by apply elem_of_nil in Hin |].
  simpl in Hnd. apply NoDup_cons in Hnd as [Hk Hnd].
  apply elem_of_cons in Hin as [Heq|Hin]; simpl.
  - injection Heq as -> ->. rewrite insert_all_other; [by rewrite lookup_insert_eq |].
    intros v' Hv'. apply Hk. apply list_elem_of_fmap. by exists (k, v').
  - by apply IH.
Qed.

Lemma insert_all_union (saved m : gmap string value) :
  foldl (fun m kv => <[kv.1 := kv.2]> m) m (map_to_list saved) = saved ∪ m.
Proof.
  apply map_eq. intros key.
  destruct (saved !! key) as [v|] eqn:Hkey.
  - rewrite (lookup_union_Some_l _ _ _ _ Hkey).
    apply insert_all_member; [apply NoDup_fst_map_to_list |].
    by apply elem_of_map_to_list.
  - rewrite lookup_union_r by done. apply insert_all_other.
    intros v Hin. apply elem_of_map_to_list in Hin. congruence.
Qed.

Lemma set_all_ordinary (l : list (string * value)) own proto :
  Forall (fun kv => kv.1 <> "__proto__") l ->
  foldl (fun t kv => table_set kv.1 kv.2 t) (Table own proto) l
    = Table (foldl (fun m kv => <[kv.1 := kv.2]> m) own l) proto.
Proof.
  intros Hl. revert own. induction Hl as [|[k v] l Hk _ IH]; intros own; [reflexivity |].
  cbn [foldl fst snd] in *. rewrite table_set_ordinary by exact Hk. apply IH.
Qed.

Lemma set_all_Beyond (l : list (string * value)) :
  foldl (fun t kv => table_set kv.1 kv.2 t) Beyond l = Beyond.
Proof. induction l as [|kv l IH]; [reflexivity | exact IH]. Qed.

Lemma ordinary_keys (saved : gmap string value) :
  saved !! "__proto__" = None ->
  Forall (fun kv => kv.1 <> "__proto__") (map_to_list saved).
Proof.
  intros Hsaved. apply Forall_forall. intros [k v] Hin Heq. simpl in Heq. subst k.
  apply elem_of_map_to_list in Hin. congruence.
Qed.

Lemma loadState_state (savedState : gmap string value) (w : World) own proto :
  savedState !! "__proto__" = None ->
  state w = Table own proto ->
  state (loadState savedState w) = Table (savedState ∪ own) proto.
Proof.
  intros Hsaved Hstate. unfold loadState. simpl. rewrite Hstate.
  rewrite set_all_ordinary by (by apply ordinary_keys).
  by rewrite insert_all_union.
Qed.

Lemma loadState_other (key : string) (savedState : gmap string value) (w : World) :
  savedState !! "__proto__" = None ->
  savedState !! key = None ->
  getState key (loadState savedState w) = getState key w.
Proof.
  intros Hsaved Hkey. unfold getState.
  destruct (state w) as [own proto|] eqn:Hstate.
  - rewrite (loadState_state _ _ _ _ Hsaved Hstate). simpl.
    by rewrite lookup_union_r.
  - unfold loadState. simpl. rewrite Hstate. by rewrite set_all_Beyond.
Qed.

Lemma resume_persist_state i w : state (resume_persist i w) = state w.
Proof. unfold resume_persist. by destruct (tasks w !! i) as [[]|]. Qed.

Lemma land_persist_state i w : state (land_persist i w) = state w.
Proof. unfold land_persist. by destruct (tasks w !! i) as [[]|]. Qed.

(** The table still has the prototype it started with and does not hold
    [key]. *)
Lemma step_unwritten (key : string) (a : action) (w : World) own :
  writes key a = false ->
  writes "__proto__" a = false ->
  state w = Table own Object_prototype ->
  own !! key = None ->
  exists own', state (step w a) = Table own' Object_prototype /\ own' !! key = None.
Proof.
  intros Hw Hp Hstate Hnone. action_cases a.
  - apply bool_decide_eq_false in Hw, Hp.
    rewrite setState_state, Hstate, table_set_ordinary by done.
    eexists. split; [reflexivity |]. by rewrite lookup_insert_ne.
  - apply bool_decide_eq_false in Hw, Hp. unfold State_prototype_setState.
    rewrite setState_state, Hstate, table_set_ordinary by done.
    eexists. split; [reflexivity |]. by rewrite lookup_insert_ne.
  - rewrite (clearState_state _ _ _ Hstate). eexists. split; [reflexivity |].
    apply lookup_empty.
  - apply bool_decide_eq_false in Hw, Hp.
    apply eq_None_not_Some in Hw, Hp.
    rewrite (loadState_state _ _ _ _ Hp Hstate). eexists. split; [reflexivity |].
    by rewrite lookup_union_r.
  - by exists own.
  - rewrite resume_persist_state. by exists own.
  - rewrite land_persist_state. by exists own.
Qed.

Lemma run_unwritten (key : string) (sched : list action) (w : World) own :
  Forall (fun a => writes key a = false) sched ->
  Forall (fun a => writes "__proto__" a = false) sched ->
  state w = Table own Object_prototype ->
  own !! key = None ->
  exists own', state (run sched w) = Table own' Object_prototype /\ own' !! key = None.
Proof.
  revert w own. induction sched as [|a sched IH]; intros w own Hsched Hproto Hstate Hnone.
  - by exists own.
  - inversion Hsched as [|? ? Ha Hrest]; subst.
    inversion Hproto as [|? ? Hpa Hprest]; subst.
    destruct (step_unwritten key a w own Ha Hpa Hstate Hnone) as (own1 & Hstate1 & Hnone1).
    change (run (a :: sched) w) with (run sched (step w a)).
    by eapply IH.
Qed.

(** With nothing written at all, [toString] and [constructor] read as
    the members of [Object.prototype]. *)
Lemma getState_inherits_from_Object_prototype :
  Forall (fun a => writes "toString" a = false) [] /\
  getState "toString" (run [] initial) = Some (VFunction "toString") /\
  getState "constructor" (run [] initial) = Some (VFunction "Object") /\
  VFunction "toString" <> VUndefined.
Proof. split; [constructor |]. split; [reflexivity |]. split; [reflexivity | discriminate]. Qed.

(** C10, amended.  As long as nothing is written under [__proto__], a
    key that no call has written and that is no property of
    [Object.prototype] reads as [undefined], which is not [null]; and a
    key other than [__proto__] under which [undefined] was stored reads
    as [undefined] too, although the table holds it. *)
Theorem getState_unwritten_is_undefined
    (sched : list action) (key stored : string)
    (Hnever : Forall (fun a => writes key a = false) sched)
    (Hproto : Forall (fun a => writes "__proto__" a = false) sched)
    (Hkey : key ∉ Object_prototype_keys)
    (Hstored : stored <> "__proto__") :
  getState key (run sched initial) = Some VUndefined /\
  VUndefined <> VNull /\
  (exists own,
     state (setState stored VUndefined None (run sched initial))
       = Table own Object_prototype /\
     own !! stored = Some VUndefined) /\
  getState stored (setState stored VUndefined None (run sched initial)) = Some VUndefined.
Proof.
  split.
  { destruct (run_unwritten key sched initial ∅ Hnever Hproto eq_refl (lookup_empty _))
      as (own & Hstate & Hnone).
    unfold getState. rewrite Hstate. simpl. rewrite Hnone.
    by apply inherited_nothing. }
  split; [discriminate |].
  destruct (run_unwritten "__proto__" sched initial ∅ Hproto Hproto eq_refl (lookup_empty _))
    as (own & Hstate & _).
  split.
  - exists (<[stored := VUndefined]> own).
    rewrite setState_state, Hstate, table_set_ordinary by done.
    split; [reflexivity | apply lookup_insert_eq].
  - by eapply getState_setState_eq.
Qed.

Lemma getState_unwritten_is_undefined_witness :
  Forall (fun a => writes "polls__count" a = false)
    [Call_setState "games__count" (VNumber 1) None; Call_clearState; Resume 0] /\
  Forall (fun a => writes "__proto__" a = false)
    [Call_setState "games__count" (VNumber 1) None; Call_clearState; Resume 0] /\
  ("polls__count" ∉ Object_prototype_keys) /\
  "k" <> "__proto__" /\
  getState "polls__count"
    (run [Call_setState "games__count" (VNumber 1) None; Call_clearState; Resume 0] initial)
    = Some VUndefined.
Proof.
  assert (H : Forall (fun a => writes "polls__count" a = false)
                [Call_setState "games__count" (VNumber 1) None; Call_clearState; Resume 0])
    by (repeat constructor).
  assert (Hp : Forall (fun a => writes "__proto__" a = false)
                [Call_setState "games__count" (VNumber 1) None; Call_clearState; Resume 0])
    by (repeat constructor).
  assert (Hkey : "polls__count" ∉ Object_prototype_keys)
    by (apply (bool_decide_eq_false_1 ("polls__count" ∈ Object_prototype_keys));
        reflexivity).
  assert (Hstored : "k" <> "__proto__") by discriminate.
  split; [exact H |]. split; [exact Hp |]. split; [exact Hkey |]. split; [exact Hstored |].
  apply (getState_unwritten_is_undefined _ "polls__count" "k" H Hp Hkey Hstored).
Defined.

End TableContents.

(** ** The persistence path *)

Section Persistence.

Lemma step_tasks_length (a : action) (w : World) :
  length (tasks w) <= length (tasks (step w a)).
Proof.
  action_cases a.
  - rewrite setState_tasks, length_app. lia.
  - unfold State_prototype_setState. rewrite setState_tasks, length_app. lia.
  - done.
  - done.
  - done.
  - unfold resume_persist. destruct (tasks w !! j) as [[]|]; simpl; try done.
    by rewrite length_insert.
  - unfold land_persist. destruct (tasks w !! j) as [[]|]; simpl; try done.
    by rewrite length_insert.
Qed.

Lemma step_tasks_stable (i : nat) (a : action) (w : World) :
  advances i a = false ->
  i < length (tasks w) ->
  tasks (step w a) !! i = tasks w !! i.
Proof.
  intros Hadv Hlt. action_cases a.
  - rewrite setState_tasks. by apply lookup_app_l.
  - unfold State_prototype_setState. rewrite setState_tasks. by apply lookup_app_l.
  - done.
  - done.
  - done.
  - apply bool_decide_eq_false in Hadv.
    unfold resume_persist. destruct (tasks w !! j) as [[]|]; simpl; try done.
    apply list_lookup_insert_ne. congruence.
  - apply bool_decide_eq_false in Hadv.
    unfold land_persist. destruct (tasks w !! j) as [[]|]; simpl; try done.
    apply list_lookup_insert_ne. congruence.
Qed.

Lemma run_tasks_stable (i : nat) (sched : list action) (w : World) :
  Forall (fun a => advances i a = false) sched ->
  i < length (tasks w) ->
  tasks (run sched w) !! i = tasks w !! i.
Proof.
  revert w. induction sched as [|a sched IH]; intros w Hsched Hlt; [done |].
  inversion Hsched as [|? ? Ha Hrest]; subst. simpl.
  rewrite IH; [by apply step_tasks_stable | exact Hrest |].
  pose proof (step_tasks_length a w). lia.
Qed.

Lemma step_keeps_setting (i : nat) (s : gmap string value) (a : action) (w : World) :
  is_land a = false ->
  tasks w !! i = Some (Setting s) ->
  tasks (step w a) !! i = Some (Setting s).
Proof.
  intros Hland Htask. action_cases a; try done.
  - rewrite setState_tasks, lookup_app_l; [done |]. by eapply lookup_lt_Some.
  - unfold State_prototype_setState.
    rewrite setState_tasks, lookup_app_l; [done |]. by eapply lookup_lt_Some.
  - unfold resume_persist. destruct (tasks w !! j) as [[]|] eqn:Hj; simpl; try done.
    rewrite list_lookup_insert_ne; [done |]. intros ->. congruence.
Qed.

Lemma step_durable_stable (a : action) (w : World) :
  is_land a = false -> durable (step w a) = durable w.
Proof.
  intros Hland. action_cases a; try done.
  - apply setState_durable.
  - apply setState_durable.
  - unfold resume_persist. by destruct (tasks w !! j) as [[]|].
Qed.

Lemma run_without_land (i : nat) (s : gmap string value) (sched : list action) (w : World) :
  Forall (fun a => is_land a = false) sched ->
  tasks w !! i = Some (Setting s) ->
  tasks (run sched w) !! i = Some (Setting s) /\ durable (run sched w) = durable w.
Proof.
  revert w. induction sched as [|a sched IH]; intros w Hsched Htask; [done |].
  inversion Hsched as [|? ? Ha Hrest]; subst. simpl.
  destruct (IH (step w a) Hrest (step_keeps_setting i s a w Ha Htask)) as [Ht Hd].
  split; [exact Ht |]. by rewrite Hd, step_durable_stable.
Qed.

Lemma assigned_ordinary (key : string) (v : value) (own : gmap string value) :
  key <> "__proto__" -> assigned key v own = <[key := v]> own.
Proof. intros Hkey. unfold assigned. by rewrite table_set_ordinary. Qed.

Lemma resume_persist_task (i : nat) (key : string) (v : value) (w : World) :
  tasks w !! i = Some (AwaitingGet key v) ->
  tasks (resume_persist i w) !! i = Some (Setting (assigned key v (snapshot w))) /\
  durable (resume_persist i w) = durable w.
Proof.
  intros Htask. unfold resume_persist. rewrite Htask. simpl. split; [| done].
  apply list_lookup_insert_eq. by eapply lookup_lt_Some.
Qed.

Lemma land_persist_snapshot (i : nat) (s : gmap string value) (w : World) :
  tasks w !! i = Some (Setting s) ->
  snapshot (land_persist i w) = s.
Proof. intros Htask. unfold land_persist. by rewrite Htask. Qed.

(** A persistent write of a function reaches the backend as it is,
    while the sanitizer would have turned it into [undefined]. *)
Lemma persisted_value_not_sanitized :
  snapshot (run [Call_fork_setState (new_State "polls" None) "cb" (VFunction "handler")
                   (Some (Options (Some true)));
                 Resume 0; Land 0] initial) !! "polls__cb"
    = Some (VFunction "handler") /\
  removeInstances (VFunction "handler") [] = (Returned VUndefined, []) /\
  VFunction "handler" <> VUndefined.
Proof. split; [vm_compute; reflexivity | split; [reflexivity | discriminate]]. Qed.

(** What [saveState] hands to [process.send] is the table itself. *)
Example saveState_payload :
  outbox (saveState (setState "cb" (VFunction "handler") None initial))
    = [Outgoing "state-save" (Table {[ "cb" := VFunction "handler" ]} Object_prototype)].
Proof. reflexivity. Qed.

(** Under the key [__proto__] the snapshot takes no entry: the number is
    assigned to the accessor of [Object.prototype], which ignores it. *)
Example persisted_proto_key_is_dropped :
  snapshot (run [Call_fork_setState (new_State "" None) "proto__" (VNumber 5)
                   (Some (Options (Some true)));
                 Resume 0; Land 0] initial) !! "__proto__" = None.
Proof. vm_compute. reflexivity. Qed.

(** C1, amended.  When a write through a fork resolves to persist and
    the namespaced key is not [__proto__], the value that reaches the
    persisted snapshot under the namespaced key is the value given to
    the call, whatever else the process does before the
    read-modify-write is resumed and before its write lands. *)
Theorem persisted_value_is_the_value_written
    (this : State) (key : string) (v : value) (options : option SetStateOptions)
    (w : World) (before after : list action)
    (Hpersist : truthy (persist (effective_options this options)) = true)
    (Hbefore : Forall (fun a => advances (length (tasks w)) a = false) before)
    (Hafter : Forall (fun a => advances (length (tasks w)) a = false) after)
    (Hkey : template (_prefix this) key <> "__proto__") :
  let i := length (tasks w) in
  snapshot
    (land_persist i
       (run after
          (resume_persist i
             (run before (State_prototype_setState this key v options w)))))
    !! template (_prefix this) key = Some v.
Proof.
  intros i.
  set (qkey := template (_prefix this) key).
  set (w1 := State_prototype_setState this key v options w).
  assert (Ht1 : tasks w1 = tasks w ++ [AwaitingGet qkey v]).
  { unfold w1, State_prototype_setState. rewrite setState_tasks.
    change (persist_of (Some (effective_options this options)))
      with (persist (effective_options this options)).
    by rewrite Hpersist. }
  assert (Hi1 : tasks w1 !! i = Some (AwaitingGet qkey v)).
  { rewrite Ht1. unfold i. by rewrite lookup_app_r, Nat.sub_diag. }
  assert (Hlt1 : i < length (tasks w1)) by (by eapply lookup_lt_Some).
  set (w2 := run before w1).
  assert (Hi2 : tasks w2 !! i = Some (AwaitingGet qkey v)).
  { unfold w2. by rewrite run_tasks_stable. }
  destruct (resume_persist_task i qkey v w2 Hi2) as [Hi3 _].
  set (w3 := resume_persist i w2) in *.
  assert (Hlt3 : i < length (tasks w3)) by (by eapply lookup_lt_Some).
  set (w4 := run after w3).
  assert (Hi4 : tasks w4 !! i = Some (Setting (assigned qkey v (snapshot w2)))).
  { unfold w4. by rewrite run_tasks_stable. }
  rewrite (land_persist_snapshot i _ w4 Hi4).
  rewrite assigned_ordinary by exact Hkey.
  apply lookup_insert_eq.
Qed.

Lemma persisted_value_is_the_value_written_witness :
  truthy (persist (effective_options (new_State "polls" (Some (Options (Some true)))) None))
    = true /\
  Forall (fun a => advances (length (tasks initial)) a = false) [Call_clearState] /\
  Forall (fun a => advances (length (tasks initial)) a = false) [Call_saveState] /\
  template (_prefix (new_State "polls" (Some (Options (Some true))))) "cb" <> "__proto__" /\
  snapshot
    (land_persist 0
       (run [Call_saveState]
          (resume_persist 0
             (run [Call_clearState]
                (State_prototype_setState (new_State "polls" (Some (Options (Some true))))
                   "cb" (VFunction "handler") None initial)))))
    !! "polls__cb" = Some (VFunction "handler").
Proof.
  assert (H1 : Forall (fun a => advances (length (tasks initial)) a = false) [Call_clearState])
    by (repeat constructor).
  assert (H2 : Forall (fun a => advances (length (tasks initial)) a = false) [Call_saveState])
    by (repeat constructor).
  assert (Hkey : template (_prefix (new_State "polls" (Some (Options (Some true))))) "cb"
                 <> "__proto__")
    by (vm_compute; discriminate).
  split; [reflexivity |]. split; [exact H1 |]. split; [exact H2 |]. split; [exact Hkey |].
  apply (persisted_value_is_the_value_written
           (new_State "polls" (Some (Options (Some true)))) "cb" (VFunction "handler")
           None initial [Call_clearState] [Call_saveState] eq_refl H1 H2 Hkey).
Defined.

(** Two persistent writes whose reads both precede the first write: the
    second write puts back the snapshot it read and the key of the first
    is gone. *)
Lemma persist_race_drops_key :
  let w := run [Call_setState "a" (VNumber 1) (Some (Options (Some true)));
                Call_setState "b" (VNumber 2) (Some (Options (Some true)));
                Resume 0; Resume 1; Land 0] initial in
  snapshot w !! "a" = Some (VNumber 1) /\
  snapshot (step w (Land 1)) !! "a" = None /\
  snapshot (step w (Land 1)) !! "b" = Some (VNumber 2).
Proof. vm_compute. repeat split. Qed.

(** With the prototype the table started with, [toString] still reads
    as the method of [Object.prototype] after [clearState]. *)
Example clearState_keeps_inherited :
  getState "toString" (clearState (setState "k" VNull None initial))
    = Some (VFunction "toString").
Proof. reflexivity. Qed.

(** C8, amended.  A read-modify-write for a key other than [__proto__]
    that is resumed with the snapshot of the backend and whose write
    lands before any other write does leaves the snapshot with its one
    namespaced key set to the value and every other key as it was;
    [clearState] removes every own key of the global state table, after
    which a key reads as what the prototype of the table supplies, with
    the prototype the table started with as absent unless it is a
    property of [Object.prototype], and leaves the backend as it is. *)
Theorem persist_overwrites_one_key_and_clear_keeps_backend
    (w : World) (i : nat) (key : string) (v : value) (between : list action)
    (own : gmap string value) (proto : prototype)
    (Htask : tasks w !! i = Some (AwaitingGet key v))
    (Hbetween : Forall (fun a => is_land a = false) between)
    (Hkey : key <> "__proto__")
    (Hstate : state w = Table own proto) :
  snapshot (land_persist i (run between (resume_persist i w)))
    = <[key := v]> (snapshot w) /\
  state (clearState w) = Table ∅ proto /\
  (forall k, getState k (clearState w) = inherited proto k) /\
  (forall k, proto = Object_prototype -> k ∉ Object_prototype_keys ->
     getState k (clearState w) = Some VUndefined) /\
  durable (clearState w) = durable w /\
  tasks (clearState w) = tasks w.
Proof.
  split.
  - destruct (resume_persist_task i key v w Htask) as [Hi _].
    destruct (run_without_land i _ between _ Hbetween Hi) as [Hi' _].
    rewrite (land_persist_snapshot i _ _ Hi'). by apply assigned_ordinary.
  - pose proof (clearState_state w own proto Hstate) as Hclear.
    split; [exact Hclear |].
    split; [intros k; unfold getState; by rewrite Hclear |].
    split; [| split; reflexivity].
    intros k -> Hk. unfold getState. rewrite Hclear. simpl.
    rewrite lookup_empty. by apply inherited_nothing.
Qed.

Lemma persist_overwrites_one_key_and_clear_keeps_backend_witness :
  tasks (setState "a" (VNumber 1) (Some (Options (Some true))) initial) !! 0
    = Some (AwaitingGet "a" (VNumber 1)) /\
  Forall (fun a => is_land a = false) [Call_setState "b" VNull None; Resume 0] /\
  "a" <> "__proto__" /\
  state (setState "a" (VNumber 1) (Some (Options (Some true))) initial)
    = Table {[ "a" := VNumber 1 ]} Object_prototype /\
  snapshot (land_persist 0
              (run [Call_setState "b" VNull None; Resume 0]
                 (resume_persist 0
                    (setState "a" (VNumber 1) (Some (Options (Some true))) initial))))
    = <[ "a" := VNumber 1 ]>
        (snapshot (setState "a" (VNumber 1) (Some (Options (Some true))) initial)).
Proof.
  assert (H : Forall (fun a => is_land a = false) [Call_setState "b" VNull None; Resume 0])
    by (repeat constructor).
  assert (Hkey : "a" <> "__proto__") by discriminate.
  assert (Hstate : state (setState "a" (VNumber 1) (Some (Options (Some true))) initial)
                   = Table {[ "a" := VNumber 1 ]} Object_prototype) by reflexivity.
  split; [reflexivity |]. split; [exact H |]. split; [exact Hkey |]. split; [exact Hstate |].
  apply (persist_overwrites_one_key_and_clear_keeps_backend
           (setState "a" (VNumber 1) (Some (Options (Some true))) initial)
           0 "a" (VNumber 1) [Call_setState "b" VNull None; Resume 0]
           _ _ eq_refl H Hkey Hstate).
Defined.

End Persistence.

(** ** The sanitizer *)

Section Sanitizer.

Lemma at_most_one_warning_refl (s : san_state) : at_most_one_warning s s.
Proof. by left. Qed.

Lemma at_most_one_warning_trans (s1 s2 s3 : san_state) :
  at_most_one_warning s1 s2 -> at_most_one_warning s2 s3 -> at_most_one_warning s1 s3.
Proof.
  intros [->|[Hw1 [x ->]]] H23; [exact H23 |].
  destruct H23 as [->|[Hw2 _]]; [| discriminate Hw2].
  right. split; [exact Hw1 | by exists x].
Qed.

Lemma bind_at_most_one_warning {A B} (m : San A) (k : A -> San B) (s : san_state) :
  at_most_one_warning s (m s).2 ->
  (forall a s', at_most_one_warning s' (k a s').2) ->
  at_most_one_warning s (bind m k s).2.
Proof.
  intros Hm Hk. unfold bind. destruct (m s) as [[a|e] s'] eqn:Hms; simpl in *.
  - eapply at_most_one_warning_trans; [exact Hm | apply Hk].
  - exact Hm.
Qed.

Lemma warn_once_at_most_one_warning (v : value) (s : san_state) :
  at_most_one_warning s (warn_once v s).2.
Proof.
  unfold warn_once. destruct (warned s) eqn:Hw; simpl.
  - by left.
  - right. split; [exact Hw | by exists v].
Qed.

Lemma constructor_name_state (ctor : option string) (s : san_state) :
  (constructor_name ctor s).2 = s.
Proof. by destruct ctor. Qed.

Lemma map_items_at_most_one_warning (f : value -> San value) (l : list value) :
  Forall (fun v => forall s, at_most_one_warning s (f v s).2) l ->
  forall s, at_most_one_warning s (map_items f l s).2.
Proof.
  induction 1 as [|v l Hv _ IH]; intros s; simpl.
  - by left.
  - apply bind_at_most_one_warning; [apply Hv |]. intros a s'.
    apply bind_at_most_one_warning; [apply IH |]. intros a' s''. by left.
Qed.

Lemma for_in_at_most_one_warning (f : value -> San value) (l : list (string * value)) :
  Forall (fun kv => forall s, at_most_one_warning s (f kv.2 s).2) l ->
  forall result proto s, at_most_one_warning s (for_in f l result proto s).2.
Proof.
  induction 1 as [|[key field] l Hv _ IH]; intros result proto s; simpl.
  - by left.
  - apply bind_at_most_one_warning; [apply Hv |]. intros a s'.
    destruct (is_defined a); [destruct (assign_field key a result proto) |]; apply IH.
Qed.

Lemma removeInstances_in_at_most_one_warning (v : value) :
  forall s, at_most_one_warning s (removeInstances_in v s).2.
Proof.
  induction v as [| | | | | |ctor items IH|ctor fields IH] using value_nested_ind;
    intros st; try (by left).
  - cbn [removeInstances_in].
    apply bind_at_most_one_warning.
    { rewrite constructor_name_state. by left. }
    intros name s'. destruct (negb (includes builtInTypes name)).
    + apply bind_at_most_one_warning; [apply warn_once_at_most_one_warning |].
      intros _ s''. by left.
    + apply bind_at_most_one_warning.
      * by apply map_items_at_most_one_warning.
      * intros mapped s''. by left.
  - cbn [removeInstances_in].
    apply bind_at_most_one_warning.
    { rewrite constructor_name_state. by left. }
    intros name s'. destruct (negb (includes builtInTypes name)).
    + apply bind_at_most_one_warning; [apply warn_once_at_most_one_warning |].
      intros _ s''. by left.
    + apply bind_at_most_one_warning.
      * by apply for_in_at_most_one_warning.
      * intros result s''. by left.
Qed.

(** C7.  One call of the sanitizer adds at most one warning to what the
    logger has printed, whatever the value holds. *)
Theorem removeInstances_warns_at_most_once (v : value) (log : list value) :
  exists added, (removeInstances v log).2 = log ++ added /\ length added <= 1.
Proof.
  unfold removeInstances.
  pose proof (removeInstances_in_at_most_one_warning v (SanState false log)) as H.
  destruct (removeInstances_in v (SanState false log)) as [r s'].
  simpl in *. destruct H as [->|[_ [x ->]]]; simpl.
  - exists []. split; [by rewrite app_nil_r | simpl; lia].
  - exists [x]. split; [reflexivity | simpl; lia].
Qed.

(** Three levels of arrays around two offending objects: one warning,
    for the first of them. *)
Example removeInstances_nested_instances :
  removeInstances
    (VArray (Some "Array")
       [VArray (Some "Array")
          [VArray (Some "Array") [VObject (Some "Date") []; VObject (Some "Map") []]]]) []
  = (Returned (VArray (Some "Array") [VArray (Some "Array") [VArray (Some "Array") []]]),
     [VObject (Some "Date") []]).
Proof. reflexivity. Qed.

(** C4, at an object without constructor: reading
    [value.constructor.name] throws instead of degrading the value to
    [undefined]. *)
Theorem removeInstances_throws_without_constructor
    (fields : list (string * value)) (log : list value) :
  removeInstances (VObject None fields) log
    = (Thrown (TypeError "Cannot read properties of undefined (reading 'name')"), log) /\
  removeInstances (VObject (Some "Object") [("data", VObject None fields)]) log
    = (Thrown (TypeError "Cannot read properties of undefined (reading 'name')"), log).
Proof. split; reflexivity. Qed.

Lemma bind_returns {A B} (m : San A) (k : A -> San B) :
  returns m -> (forall a, returns (k a)) -> returns (bind m k).
Proof.
  intros Hm Hk s. unfold bind. destruct (Hm s) as [a [s' ->]]. apply Hk.
Qed.

Lemma ret_returns {A} (a : A) : returns (ret a).
Proof. intros s. by exists a, s. Qed.

Lemma warn_once_returns (v : value) : returns (warn_once v).
Proof. intros s. unfold warn_once. destruct (warned s); eauto. Qed.

Lemma map_items_returns (f : value -> San value) (l : list value) :
  Forall (fun v => returns (f v)) l -> returns (map_items f l).
Proof.
  induction 1 as [|v l Hv _ IH]; simpl; [apply ret_returns |].
  apply bind_returns; [exact Hv |]. intros a.
  apply bind_returns; [exact IH |]. intros a'. apply ret_returns.
Qed.

Lemma for_in_returns (f : value -> San value) (l : list (string * value)) :
  Forall (fun kv => returns (f kv.2)) l ->
  forall result proto, returns (for_in f l result proto).
Proof.
  induction 1 as [|[key field] l Hv _ IH]; intros result proto; simpl; [apply ret_returns |].
  apply bind_returns; [exact Hv |]. intros a.
  destruct (is_defined a); [destruct (assign_field key a result proto) |]; apply IH.
Qed.

(** Away from such objects the sanitizer comes back with a value. *)
Lemma removeInstances_in_returns (v : value) :
  has_constructors v = true -> returns (removeInstances_in v).
Proof.
  induction v as [| | | | | |ctor items IH|ctor fields IH] using value_nested_ind;
    intros Hc; try apply ret_returns.
  - cbn [has_constructors] in Hc. apply andb_true_iff in Hc as [Hctor Hitems].
    apply bool_decide_eq_true in Hctor as [name ->].
    cbn [removeInstances_in constructor_name].
    apply bind_returns; [apply ret_returns |]. intros name'.
    destruct (negb (includes builtInTypes name')).
    + apply bind_returns; [apply warn_once_returns | intros; apply ret_returns].
    + apply bind_returns; [| intros; apply ret_returns].
      apply map_items_returns.
      rewrite forallb_forall in Hitems. rewrite Forall_forall in IH |- *.
      intros x Hx. apply (IH x Hx). apply Hitems. by apply list_elem_of_In.
  - cbn [has_constructors] in Hc. apply andb_true_iff in Hc as [Hctor Hfields].
    apply bool_decide_eq_true in Hctor as [name ->].
    cbn [removeInstances_in constructor_name].
    apply bind_returns; [apply ret_returns |]. intros name'.
    destruct (negb (includes builtInTypes name')).
    + apply bind_returns; [apply warn_once_returns | intros; apply ret_returns].
    + apply bind_returns; [| intros; apply ret_returns].
      apply for_in_returns.
      rewrite forallb_forall in Hfields. rewrite Forall_forall in IH |- *.
      intros [k x] Hx. apply (IH (k, x) Hx).
      apply (Hfields (k, x)). by apply list_elem_of_In.
Qed.

(** Functions and instances of classes other than the built-in ones
    come back as [undefined]. *)
Lemma removeInstances_unsupported (log : list value) :
  (forall name, removeInstances (VFunction name) log = (Returned VUndefined, log)) /\
  (forall name fields, includes builtInTypes name = false ->
     removeInstances (VObject (Some name) fields) log
       = (Returned VUndefined, log ++ [VObject (Some name) fields])).
Proof.
  split; [reflexivity |]. intros name fields Hname.
  unfold removeInstances. cbn [removeInstances_in constructor_name].
  unfold bind, ret. simpl. by rewrite Hname.
Qed.

End Sanitizer.

(** ** The save protocol *)

Section SaveProtocol.

Lemma getStateSave_armed (p : ChildProcess) :
  getStateSave (Some p)
    = mkSave (Some (mkProcess true true (sent p ++ [Message "state-save" None]))) Pending
        [On_message; Once_error; Send (Message "state-save" None)].
Proof. reflexivity. Qed.

Lemma deliver_cons (ev : event) (events : list event) (c : save_call) :
  deliver (ev :: events) c = deliver events (emit c ev).
Proof. reflexivity. Qed.

Lemma deliver_app (events1 events2 : list event) (c : save_call) :
  deliver (events1 ++ events2) c = deliver events2 (deliver events1 c).
Proof. unfold deliver. apply foldl_app. Qed.

Lemma deliver_ignored (ignored : list event) (c : save_call) (p : ChildProcess) :
  botProcess c = Some p ->
  message_listener p = true ->
  Forall (fun ev => settles ev = false) ignored ->
  deliver ignored c = c.
Proof.
  intros Hp Hon. induction 1 as [|ev ignored Hev _ IH]; [reflexivity |].
  rewrite deliver_cons.
  assert (Hemit : emit c ev = c); [| by rewrite Hemit].
  destruct ev as [message|error]; [| discriminate Hev].
  simpl in Hev. unfold emit. rewrite Hp, Hon. unfold messageListener.
  by rewrite Hev.
Qed.

Lemma emit_settled (c : save_call) (ev : event) :
  result c <> Pending -> result (emit c ev) = result c.
Proof.
  intros Hsettled. unfold emit.
  destruct (botProcess c) as [p|]; [| reflexivity].
  destruct ev as [message|error].
  - destruct (message_listener p); [| reflexivity].
    unfold messageListener. destruct (isStateMessage message); [| reflexivity].
    simpl. by destruct (result c).
  - destruct (error_listener p); [| reflexivity].
    simpl. by destruct (result c).
Qed.

Lemma deliver_settled (events : list event) (c : save_call) :
  result c <> Pending -> result (deliver events c) = result c.
Proof.
  revert c. induction events as [|ev events IH]; intros c Hsettled; [reflexivity |].
  rewrite deliver_cons.
  rewrite IH; rewrite emit_settled; done.
Qed.

Lemma deliver_deaf (events : list event) (c : save_call) (p : ChildProcess) :
  botProcess c = Some p ->
  message_listener p = false ->
  error_listener p = false ->
  deliver events c = c.
Proof.
  intros Hp Hmsg Herr. induction events as [|ev events IH]; [reflexivity |].
  rewrite deliver_cons.
  assert (Hemit : emit c ev = c); [| by rewrite Hemit].
  unfold emit. rewrite Hp. by destruct ev; rewrite ?Hmsg, ?Herr.
Qed.

(** A [state-load] message that arrives first settles the save, with
    its own payload and not with the payload of the [state-save]
    message behind it. *)
Lemma getStateSave_resolves_on_state_load :
  result
    (deliver [Ev_message (Message "state-load" (Some {[ "k" := VNumber 1 ]}));
              Ev_message (Message "state-save" (Some ∅))]
       (getStateSave (Some (mkProcess false false []))))
    = Resolved (Some {[ "k" := VNumber 1 ]}) /\
  Resolved (Some {[ "k" := VNumber 1 ]}) <> Resolved (Some ∅).
Proof.
  split; [reflexivity |].
  intros H.
  apply (f_equal (fun r => match r with
                           | Resolved (Some payload) => payload !! "k"
                           | _ => None
                           end)) in H.
  vm_compute in H. discriminate H.
Qed.

(** C5, amended.  Without a worker the save is resolved with the empty
    mapping at once.  With a worker it stays pending while only other
    messages arrive; the first fault or message of type [state-save] or
    [state-load] settles it: a fault rejects it with that fault, the
    message listener being taken off just before, and such a message
    resolves it with the message's state. *)
Theorem getStateSave_outcome
    (p : ChildProcess) (ignored later : list event) (decisive : event)
    (Hignored : Forall (fun ev => settles ev = false) ignored)
    (Hdecisive : settles decisive = true) :
  result (getStateSave None) = Resolved (Some ∅) /\
  result (deliver ignored (getStateSave (Some p))) = Pending /\
  match decisive with
  | Ev_error error =>
      result (deliver (ignored ++ decisive :: later) (getStateSave (Some p)))
        = Rejected error /\
      trace (deliver (ignored ++ decisive :: later) (getStateSave (Some p)))
        = trace (getStateSave (Some p)) ++ [Off_message; Reject error]
  | Ev_message message =>
      result (deliver (ignored ++ decisive :: later) (getStateSave (Some p)))
        = Resolved (msg_state message)
  end.
Proof.
  split; [reflexivity |].
  rewrite getStateSave_armed.
  set (c0 := mkSave _ Pending _).
  assert (Hidle : deliver ignored c0 = c0)
    by (by eapply deliver_ignored).
  split; [by rewrite Hidle |].
  destruct decisive as [message|error].
  - rewrite deliver_app, Hidle. simpl in Hdecisive.
    rewrite deliver_cons.
    rewrite deliver_settled.
    + unfold c0, emit, messageListener. simpl. by rewrite Hdecisive.
    + unfold c0, emit, messageListener. simpl. by rewrite Hdecisive.
  - rewrite deliver_app, Hidle.
    assert (Hdeaf : deliver (Ev_error error :: later) c0 = emit c0 (Ev_error error)).
    { rewrite deliver_cons. by eapply deliver_deaf. }
    rewrite Hdeaf. split; reflexivity.
Qed.

Lemma getStateSave_outcome_witness :
  Forall (fun ev => settles ev = false) [Ev_message (Message "ready" None)] /\
  settles (Ev_error (Fault "channel closed")) = true /\
  result
    (deliver ([Ev_message (Message "ready" None)]
                ++ Ev_error (Fault "channel closed")
                   :: [Ev_message (Message "state-save" (Some ∅))])
       (getStateSave (Some (mkProcess false false []))))
    = Rejected (Fault "channel closed").
Proof.
  assert (H : Forall (fun ev => settles ev = false) [Ev_message (Message "ready" None)])
    by (repeat constructor).
  split; [exact H |]. split; [reflexivity |].
  apply (getStateSave_outcome (mkProcess false false [])
           [Ev_message (Message "ready" None)]
           [Ev_message (Message "state-save" (Some ∅))]
           (Ev_error (Fault "channel closed")) H eq_refl).
Defined.

End SaveProtocol.

(** * Further properties of the module *)

(** ** What the sanitizer returns *)

Section SanitizerOutput.

Lemma bind_Returned {A B} (m : San A) (k : A -> San B) s b s' :
  bind m k s = (Returned b, s') ->
  exists a s1, m s = (Returned a, s1) /\ k a s1 = (Returned b, s').
Proof.
  unfold bind. destruct (m s) as [[a|e] s1]; [| discriminate].
  intros H. by exists a, s1.
Qed.

Lemma ret_Returned {A} (a b : A) s s' : ret a s = (Returned b, s') -> b = a /\ s' = s.
Proof. unfold ret. intros H. by injection H as -> ->. Qed.

Lemma map_items_Returned (P : value -> Prop) (f : value -> San value) (l : list value) :
  Forall (fun v => forall s r s', f v s = (Returned r, s') -> P r) l ->
  forall s l' s', map_items f l s = (Returned l', s') ->
  Forall P l' /\ length l' = length l.
Proof.
  induction 1 as [|v l Hv _ IH]; intros s l' s' Hrun; simpl in Hrun.
  - apply ret_Returned in Hrun as [-> _]. by split.
  - apply bind_Returned in Hrun as (r & s1 & Hr & Hrun).
    apply bind_Returned in Hrun as (rest & s2 & Hrest & Hrun).
    apply ret_Returned in Hrun as [-> _].
    destruct (IH _ _ _ Hrest) as [Hall Hlen].
    split; [constructor; eauto | simpl; by rewrite Hlen].
Qed.

End SanitizerOutput.

(** ** When the sanitizer throws and what it logs *)

Section SanitizerEffects.

Lemma map_items_thrown_when (f : value -> San value) (g : value -> bool) (l : list value) :
  Forall (fun v => forall s, thrown_when (f v s).1 (g v)) l ->
  forall s, thrown_when (map_items f l s).1 (existsb g l).
Proof.
  induction 1 as [|v l Hv _ IH]; intros s; simpl; [reflexivity |].
  unfold bind. specialize (Hv s). destruct (f v s) as [[r|e] s1]; simpl in *.
  - rewrite Hv. simpl. specialize (IH s1).
    destruct (map_items f l s1) as [[rest|e] s2]; simpl in *; exact IH.
  - by rewrite Hv.
Qed.

Lemma for_in_thrown_when (f : value -> San value) (g : value -> bool)
    (l : list (string * value)) :
  Forall (fun kv => forall s, thrown_when (f kv.2 s).1 (g kv.2)) l ->
  forall acc proto s,
    thrown_when (for_in f l acc proto s).1 (existsb (fun '(_, x) => g x) l).
Proof.
  induction 1 as [|[key field] l Hv _ IH]; intros acc proto s; simpl; [reflexivity |].
  unfold bind. specialize (Hv s). simpl in Hv.
  destruct (f field s) as [[r|e] s1]; simpl in *.
  - rewrite Hv. simpl.
    destruct (is_defined r); [destruct (assign_field key r acc proto) |]; apply IH.
  - by rewrite Hv.
Qed.

Lemma removeInstances_in_thrown_when (v : value) :
  forall s, thrown_when (removeInstances_in v s).1 (reaches_bare v).
Proof.
  induction v as [| | | | | |ctor items IH|ctor fields IH] using value_nested_ind;
    intros st; try reflexivity.
  - cbn [removeInstances_in reaches_bare]. destruct ctor as [name|]; [| reflexivity].
    cbn [constructor_name]. unfold bind at 1. simpl.
    destruct (includes builtInTypes name); simpl.
    + unfold bind.
      pose proof (map_items_thrown_when _ _ _ IH st) as Hloop.
      destruct (map_items removeInstances_in items st) as [[mapped|e] s1]; exact Hloop.
    + unfold bind, warn_once. by destruct (warned st).
  - cbn [removeInstances_in reaches_bare]. destruct ctor as [name|]; [| reflexivity].
    cbn [constructor_name]. unfold bind at 1. simpl.
    destruct (includes builtInTypes name); simpl.
    + unfold bind.
      pose proof (for_in_thrown_when _ _ _ IH [] Object_prototype st) as Hloop.
      destruct (for_in removeInstances_in fields [] Object_prototype st)
        as [[result|e] s1]; exact Hloop.
    + unfold bind, warn_once. by destruct (warned st).
Qed.

Lemma logged_instances_refl (s : san_state) : logged_instances s s.
Proof. exists []. split; [by rewrite app_nil_r | constructor]. Qed.

Lemma logged_instances_trans (s1 s2 s3 : san_state) :
  logged_instances s1 s2 -> logged_instances s2 s3 -> logged_instances s1 s3.
Proof.
  intros (a1 & H1 & Ha1) (a2 & H2 & Ha2). exists (a1 ++ a2).
  split; [by rewrite H2, H1, app_assoc | by apply Forall_app].
Qed.

Lemma bind_logged_instances {A B} (m : San A) (k : A -> San B) (s : san_state) :
  logged_instances s (m s).2 ->
  (forall a s', logged_instances s' (k a s').2) ->
  logged_instances s (bind m k s).2.
Proof.
  intros Hm Hk. unfold bind. destruct (m s) as [[a|e] s'] eqn:Hms; simpl in *.
  - eapply logged_instances_trans; [exact Hm | apply Hk].
  - exact Hm.
Qed.

Lemma warn_once_logged_instances (v : value) (s : san_state) :
  is_instance v = true -> logged_instances s (warn_once v s).2.
Proof.
  intros Hv. unfold warn_once. destruct (warned s); simpl.
  - apply logged_instances_refl.
  - exists [v]. split; [reflexivity | by constructor].
Qed.

Lemma map_items_logged_instances (f : value -> San value) (l : list value) :
  Forall (fun v => forall s, logged_instances s (f v s).2) l ->
  forall s, logged_instances s (map_items f l s).2.
Proof.
  induction 1 as [|v l Hv _ IH]; intros s; simpl.
  - apply logged_instances_refl.
  - apply bind_logged_instances; [apply Hv |]. intros a s'.
    apply bind_logged_instances; [apply IH |]. intros a' s''. apply logged_instances_refl.
Qed.

Lemma for_in_logged_instances (f : value -> San value) (l : list (string * value)) :
  Forall (fun kv => forall s, logged_instances s (f kv.2 s).2) l ->
  forall acc proto s, logged_instances s (for_in f l acc proto s).2.
Proof.
  induction 1 as [|[key field] l Hv _ IH]; intros acc proto s; simpl.
  - apply logged_instances_refl.
  - apply bind_logged_instances; [apply Hv |]. intros a s'.
    destruct (is_defined a); [destruct (assign_field key a acc proto) |]; apply IH.
Qed.

Lemma removeInstances_in_logged_instances (v : value) :
  forall s, logged_instances s (removeInstances_in v s).2.
Proof.
  induction v as [| | | | | |ctor items IH|ctor fields IH] using value_nested_ind;
    intros st; try apply logged_instances_refl.
  - cbn [removeInstances_in]. destruct ctor as [name|]; [| apply logged_instances_refl].
    cbn [constructor_name]. unfold bind at 1. simpl.
    destruct (includes builtInTypes name) eqn:Hname; simpl.
    + apply bind_logged_instances; [by apply map_items_logged_instances |].
      intros mapped s'. apply logged_instances_refl.
    + apply bind_logged_instances.
      * apply warn_once_logged_instances. simpl. by rewrite Hname.
      * intros _ s'. apply logged_instances_refl.
  - cbn [removeInstances_in]. destruct ctor as [name|]; [| apply logged_instances_refl].
    cbn [constructor_name]. unfold bind at 1. simpl.
    destruct (includes builtInTypes name) eqn:Hname; simpl.
    + apply bind_logged_instances; [by apply for_in_logged_instances |].
      intros result s'. apply logged_instances_refl.
    + apply bind_logged_instances.
      * apply warn_once_logged_instances. simpl. by rewrite Hname.
      * intros _ s'. apply logged_instances_refl.
Qed.

End SanitizerEffects.

(** ** The sanitizer, seen from its callers *)

Section SanitizerExtras.

Lemma removeInstances_Returned (v : value) (log : list value) r log' :
  removeInstances v log = (Returned r, log') ->
  exists s', removeInstances_in v (SanState false log) = (Returned r, s') /\
             warnings s' = log'.
Proof.
  unfold removeInstances.
  destruct (removeInstances_in v (SanState false log)) as [o s'].
  intros H. injection H as -> <-. by exists s'.
Qed.

(** X4.  Of an array with a built-in constructor the sanitizer returns
    a plain array that is no longer than the input and holds no
    [undefined]. *)
Theorem removeInstances_array_shrinks
    (name : string) (items : list value) (log : list value)
    (r : value) (log' : list value)
    (Hname : includes builtInTypes name = true)
    (Hrun : removeInstances (VArray (Some name) items) log = (Returned r, log')) :
  exists kept,
    r = VArray (Some "Array") kept /\
    length kept <= length items /\
    Forall (fun x => is_defined x = true) kept.
Proof.
  apply removeInstances_Returned in Hrun as (s' & Hrun & _).
  cbn [removeInstances_in constructor_name] in Hrun.
  unfold bind at 1 in Hrun. simpl in Hrun. rewrite Hname in Hrun. simpl in Hrun.
  apply bind_Returned in Hrun as (mapped & s1 & Hloop & Hrun).
  apply ret_Returned in Hrun as [-> _].
  assert (Hany : Forall (fun v : value =>
                   forall s r s', removeInstances_in v s = (Returned r, s') -> True) items)
    by (apply Forall_forall; auto).
  destruct (map_items_Returned _ _ _ Hany _ _ _ Hloop) as [_ Hlen].
  eexists. split; [reflexivity |]. split.
  - rewrite <- Hlen. apply length_filter.
  - apply Forall_forall. intros x Hx. by apply list_elem_of_filter in Hx as [Hdef _].
Qed.

Lemma removeInstances_array_shrinks_witness :
  includes builtInTypes "Array" = true /\
  removeInstances (VArray (Some "Array") [VUndefined; VString "a"; VFunction "f"]) []
    = (Returned (VArray (Some "Array") [VString "a"]), []) /\
  exists kept,
    VArray (Some "Array") [VString "a"] = VArray (Some "Array") kept /\
    length kept <= length [VUndefined; VString "a"; VFunction "f"] /\
    Forall (fun x => is_defined x = true) kept.
Proof.
  assert (H : removeInstances (VArray (Some "Array") [VUndefined; VString "a"; VFunction "f"]) []
    = (Returned (VArray (Some "Array") [VString "a"]), [])) by reflexivity.
  split; [reflexivity |]. split; [exact H |].
  apply (removeInstances_array_shrinks "Array" _ _ _ _ eq_refl H).
Defined.

(** X5.  The sanitizer throws exactly when its walk comes to an array or
    object without constructor; an instance hides what is inside it. *)
Theorem removeInstances_throws_exactly_at_bare (v : value) (log : list value) :
  thrown_when (removeInstances v log).1 (reaches_bare v).
Proof.
  unfold removeInstances.
  pose proof (removeInstances_in_thrown_when v (SanState false log)) as H.
  by destruct (removeInstances_in v (SanState false log)) as [o s'].
Qed.

(** X6.  Whatever the sanitizer logs is a class instance: functions and
    [undefined] are dropped without a warning. *)
Theorem removeInstances_logs_instances_only
    (v : value) (log : list value) (offending : value)
    (Hlog : (removeInstances v log).2 = log ++ [offending]) :
  is_instance offending = true.
Proof.
  unfold removeInstances in Hlog.
  pose proof (removeInstances_in_logged_instances v (SanState false log)) as H.
  destruct (removeInstances_in v (SanState false log)) as [o s'].
  simpl in *. destruct H as (added & Hadded & Hall).
  rewrite Hadded in Hlog. apply app_inv_head in Hlog as ->.
  by inversion Hall.
Qed.

Lemma removeInstances_logs_instances_only_witness :
  (removeInstances (VArray (Some "Array") [VFunction "f"; VObject (Some "Date") []]) []).2
    = [] ++ [VObject (Some "Date") []] /\
  is_instance (VObject (Some "Date") []) = true.
Proof.
  assert (H : (removeInstances
                 (VArray (Some "Array") [VFunction "f"; VObject (Some "Date") []]) []).2
              = [] ++ [VObject (Some "Date") []]) by reflexivity.
  split; [exact H |].
  apply (removeInstances_logs_instances_only _ _ _ H).
Defined.

End SanitizerExtras.

(** ** Loading, saving and restarting *)

Section LoadAndSave.



(** A saved mapping with an own key [__proto__], as [JSON.parse] builds
    it, replaces the prototype of the table instead. *)
Example loadState_proto_key :
  getState "z" initial = Some VUndefined /\
  getState "z" (loadState {[ "__proto__" := VObject (Some "Object") [("z", VNumber 9)] ]}
                  initial) = Some (VNumber 9).
Proof. split; reflexivity. Qed.



Lemma getState_step_kept (key : string) (a : action) (w : World) :
  writes key a = false -> writes "__proto__" a = false -> a <> Call_clearState ->
  getState key (step w a) = getState key w.
Proof.
  intros Hw Hp Hclear. action_cases a.
  - apply bool_decide_eq_false in Hw, Hp. by apply getState_setState_ne.
  - apply bool_decide_eq_false in Hw, Hp. unfold State_prototype_setState.
    by apply getState_setState_ne.
  - done.
  - apply bool_decide_eq_false in Hw, Hp. apply eq_None_not_Some in Hw, Hp.
    by apply loadState_other.
  - reflexivity.
  - unfold getState. by rewrite resume_persist_state.
  - unfold getState. by rewrite land_persist_state.
Qed.

(** X9.  As long as nothing is written under [__proto__], what a key
    reads as changes only by a write to that key, a load that carries
    it, or a clear: no other call and no step of the persistence path
    disturbs it. *)
Theorem getState_stable
    (key : string) (sched : list action) (w : World)
    (Hsched : Forall (fun a => writes key a = false /\ writes "__proto__" a = false
                               /\ a <> Call_clearState) sched) :
  getState key (run sched w) = getState key w.
Proof.
  revert w. induction Hsched as [|a sched (Hw & Hp & Hc) _ IH]; intros w; [reflexivity |].
  change (run (a :: sched) w) with (run sched (step w a)).
  rewrite IH. by apply getState_step_kept.
Qed.

Lemma getState_stable_witness :
  Forall (fun a => writes "polls__count" a = false /\ writes "__proto__" a = false
                   /\ a <> Call_clearState)
    [Call_setState "games__count" VNull (Some (Options (Some true))); Resume 0;
     Call_saveState; Land 0; Call_loadState {[ "games__best" := VNumber 7 ]}] /\
  getState "polls__count"
    (run [Call_setState "games__count" VNull (Some (Options (Some true))); Resume 0;
          Call_saveState; Land 0; Call_loadState {[ "games__best" := VNumber 7 ]}]
       (setState "polls__count" (VNumber 3) None initial))
    = getState "polls__count" (setState "polls__count" (VNumber 3) None initial).
Proof.
  assert (H : Forall (fun a => writes "polls__count" a = false /\ writes "__proto__" a = false
                               /\ a <> Call_clearState)
    [Call_setState "games__count" VNull (Some (Options (Some true))); Resume 0;
     Call_saveState; Land 0; Call_loadState {[ "games__best" := VNumber 7 ]}]).
  { repeat constructor; try discriminate; by vm_compute. }
  split; [exact H |].
  apply (getState_stable "polls__count" _ _ H).
Defined.

End LoadAndSave.

(** ** Forks and their registry *)

Section ForkExtras.

Lemma State_fork_registry (prefix : string) (options : option StateOptions) (w : World) :
  NoDup (State_prefixes w) ->
  NoDup (State_prefixes (State_fork prefix options w).2) /\
  (forall p, p ∈ State_prefixes (State_fork prefix options w).2
             <-> p ∈ State_prefixes w \/ p = prefix) /\
  State_prefixes w `prefix_of` State_prefixes (State_fork prefix options w).2.
Proof.
  intros Hnd. unfold State_fork. simpl. case_bool_decide as Hin.
  - split; [exact Hnd |]. split; [| reflexivity].
    intros p. split; [by left |]. by intros [?| ->].
  - split; [| split].
    + apply NoDup_app. split; [exact Hnd |]. split; [| apply NoDup_singleton].
      intros x Hx Hx'. apply list_elem_of_singleton in Hx' as ->. by apply Hin.
    + intros p. rewrite elem_of_app, list_elem_of_singleton. tauto.
    + by apply prefix_app_r.
Qed.

(** X10.  The registry lists every prefix given to the static [fork]
    once, however often it is given, keeps the prefixes registered
    before in their places, and lists nothing else. *)
Theorem State_fork_each_registry
    (prefixes : list string) (w : World)
    (Hnodup : NoDup (State_listForks w)) :
  NoDup (State_listForks (State_fork_each prefixes w)) /\
  (forall p, p ∈ State_listForks (State_fork_each prefixes w)
             <-> p ∈ State_listForks w \/ p ∈ prefixes) /\
  State_listForks w `prefix_of` State_listForks (State_fork_each prefixes w).
Proof.
  unfold State_listForks in *.
  revert w Hnodup. induction prefixes as [|prefix prefixes IH]; intros w Hnodup.
  - split; [exact Hnodup |]. split; [| reflexivity].
    intros p. rewrite elem_of_nil. tauto.
  - change (State_fork_each (prefix :: prefixes) w)
      with (State_fork_each prefixes (State_fork prefix None w).2).
    destruct (State_fork_registry prefix None w Hnodup) as (Hnd1 & Hin1 & Hpre1).
    destruct (IH _ Hnd1) as (Hnd2 & Hin2 & Hpre2).
    split; [exact Hnd2 |]. split.
    + intros p. rewrite Hin2, Hin1, elem_of_cons. tauto.
    + by etrans.
Qed.

Lemma State_fork_each_registry_witness :
  NoDup (State_listForks initial) /\
  State_listForks (State_fork_each ["a"; "b"; "a"] initial) = ["a"; "b"] /\
  NoDup (State_listForks (State_fork_each ["a"; "b"; "a"] initial)).
Proof.
  assert (H : NoDup (State_listForks initial)) by constructor.
  split; [exact H |]. split; [reflexivity |].
  apply (State_fork_each_registry ["a"; "b"; "a"] initial H).
Defined.

(** X11.  Forks share the table by prefix: what is written through one
    fork under a local key whose qualified key is not [__proto__] is
    read back through every fork with the same prefix, whatever the
    options of either fork and of the call. *)
Theorem forks_share_by_prefix
    (fork1 fork2 : State) (key : string) (v : value)
    (options : option SetStateOptions) (w : World)
    (own : gmap string value) (proto : prototype)
    (Hsame : _prefix fork1 = _prefix fork2)
    (Hkey : template (_prefix fork1) key <> "__proto__")
    (Hstate : state w = Table own proto) :
  State_prototype_getState fork2 key (State_prototype_setState fork1 key v options w)
    = Some v.
Proof.
  unfold State_prototype_getState, State_prototype_setState.
  rewrite <- Hsame. by eapply getState_setState_eq.
Qed.

Lemma forks_share_by_prefix_witness :
  _prefix (State_fork "polls" (Some (Options (Some true))) initial).1
    = _prefix (State_fork "polls" None initial).1 /\
  template (_prefix (State_fork "polls" (Some (Options (Some true))) initial).1) "count"
    <> "__proto__" /\
  state initial = Table ∅ Object_prototype /\
  State_prototype_getState (State_fork "polls" None initial).1 "count"
    (State_prototype_setState (State_fork "polls" (Some (Options (Some true))) initial).1
       "count" (VNumber 5) None initial)
    = Some (VNumber 5).
Proof.
  assert (Hkey : template (_prefix (State_fork "polls" (Some (Options (Some true)))
                                      initial).1) "count" <> "__proto__")
    by (vm_compute; discriminate).
  assert (Hstate : state initial = Table ∅ Object_prototype) by reflexivity.
  split; [reflexivity |]. split; [exact Hkey |]. split; [exact Hstate |].
  apply (forks_share_by_prefix
           (State_fork "polls" (Some (Options (Some true))) initial).1
           (State_fork "polls" None initial).1 "count" (VNumber 5) None initial
           ∅ Object_prototype eq_refl Hkey Hstate).
Defined.

(** With an empty prefix the local key [proto__] is the key [__proto__]:
    a number written there is ignored and the key reads as
    [Object.prototype]. *)
Example fork_proto_key_is_not_read_back :
  State_prototype_getState (new_State "" None) "proto__"
    (State_prototype_setState (new_State "" None) "proto__" (VNumber 5) None initial)
    = Some Object_prototype_value.
Proof. reflexivity. Qed.

(** X12.  A write through the leaf of a chain of nested forks, when the
    root prefix, the local prefixes and the key joined by the separator
    are not [__proto__], is read from the global table under that joined
    key, and through a fork built by the same chain. *)
Theorem nested_fork_write_read
    (root : State) (locals : list string) (key : string) (v : value)
    (options : option SetStateOptions) (w : World)
    (own : gmap string value) (proto : prototype)
    (Hkey : join (_prefix root) (locals ++ [key]) <> "__proto__")
    (Hstate : state w = Table own proto) :
  getState (join (_prefix root) (locals ++ [key]))
    (State_prototype_setState (fork_chain root locals) key v options w) = Some v /\
  State_prototype_getState (fork_chain (new_State (_prefix root) None) locals) key
    (State_prototype_setState (fork_chain root locals) key v options w) = Some v.
Proof.
  rewrite <- qualified_key_join in Hkey. unfold qualified_key in Hkey.
  split.
  - rewrite <- qualified_key_join. unfold qualified_key, State_prototype_setState.
    by eapply getState_setState_eq.
  - unfold State_prototype_getState, State_prototype_setState.
    rewrite !fork_chain_prefix in *. simpl. by eapply getState_setState_eq.
Qed.

Lemma nested_fork_write_read_witness :
  join (_prefix (new_State "r" None)) (["x"; "y"] ++ ["k"]) <> "__proto__" /\
  state initial = Table ∅ Object_prototype /\
  getState (join (_prefix (new_State "r" None)) (["x"; "y"] ++ ["k"]))
    (State_prototype_setState (fork_chain (new_State "r" None) ["x"; "y"]) "k"
       (VNumber 1) None initial) = Some (VNumber 1).
Proof.
  assert (Hkey : join (_prefix (new_State "r" None)) (["x"; "y"] ++ ["k"]) <> "__proto__")
    by (vm_compute; discriminate).
  assert (Hstate : state initial = Table ∅ Object_prototype) by reflexivity.
  split; [exact Hkey |]. split; [exact Hstate |].
  apply (nested_fork_write_read (new_State "r" None) ["x"; "y"] "k" (VNumber 1) None
           initial ∅ Object_prototype Hkey Hstate).
Defined.

End ForkExtras.

(** ** Persistence and the table *)

Section PersistenceExtras.







Lemma run_durable_stable (sched : list action) (w : World) :
  Forall (fun a => is_land a = false) sched -> durable (run sched w) = durable w.
Proof.
  intros Hsched. revert w. induction Hsched as [|a sched Ha _ IH]; intros w; [reflexivity |].
  change (run (a :: sched) w) with (run sched (step w a)).
  by rewrite IH, step_durable_stable.
Qed.

(** X14.  The backend changes only when a write lands: no call of the
    module and no resumed read-modify-write changes the persisted
    snapshot by itself. *)
Theorem backend_changes_only_on_landing
    (sched : list action) (w : World)
    (Hsched : Forall (fun a => is_land a = false) sched) :
  durable (run sched w) = durable w /\ snapshot (run sched w) = snapshot w.
Proof.
  unfold snapshot. by rewrite run_durable_stable.
Qed.

Lemma backend_changes_only_on_landing_witness :
  Forall (fun a => is_land a = false)
    [Call_setState "k" VNull (Some (Options (Some true))); Resume 0; Call_clearState] /\
  durable (run [Call_setState "k" VNull (Some (Options (Some true))); Resume 0;
                Call_clearState] initial) = durable initial.
Proof.
  assert (H : Forall (fun a => is_land a = false)
    [Call_setState "k" VNull (Some (Options (Some true))); Resume 0; Call_clearState])
    by (repeat constructor).
  split; [exact H |].
  apply (backend_changes_only_on_landing _ initial H).
Defined.

End PersistenceExtras.

(** ** The save protocol over any run of the channel *)

Section SaveProtocolExtras.

Lemma emit_listeners_in_step (request : list RoboMessage) (c : save_call) (ev : event) :
  listeners_in_step request c -> listeners_in_step request (emit c ev).
Proof.
  intros (p & Hp & Hsent & Hres).
  assert (Hsame : listeners_in_step request c) by (exists p; auto).
  unfold emit. rewrite Hp.
  destruct ev as [message|error].
  - destruct (message_listener p) eqn:Hmsg; [| exact Hsame].
    unfold messageListener. destruct (isStateMessage message); [| exact Hsame].
    destruct (result c) eqn:Hr; [| congruence | destruct Hres; congruence].
    unfold listeners_in_step, perform. simpl. rewrite Hp, Hr.
    eexists. split; [reflexivity |]. by split.
  - destruct (error_listener p) eqn:Herr; [| exact Hsame].
    unfold errorListener, listeners_in_step, perform. simpl.
    destruct (result c) eqn:Hr.
    + eexists. split; [reflexivity |]. by split.
    + eexists. split; [reflexivity |]. by split.
    + destruct Hres; congruence.
Qed.

Lemma deliver_listeners_in_step (request : list RoboMessage) (events : list event)
    (c : save_call) :
  listeners_in_step request c -> listeners_in_step request (deliver events c).
Proof.
  revert c. induction events as [|ev events IH]; intros c Hc; [exact Hc |].
  rewrite deliver_cons. by apply IH, emit_listeners_in_step.
Qed.

(** X15.  Whatever the channel delivers after [getStateSave], the
    worker has been sent the one [state-save] request and nothing else,
    the message listener is registered exactly while the save is
    pending, and a fault leaves no listener of the call behind. *)
Theorem getStateSave_listeners_in_step (p : ChildProcess) (events : list event) :
  listeners_in_step (sent p ++ [Message "state-save" None])
    (deliver events (getStateSave (Some p))).
Proof.
  apply deliver_listeners_in_step. rewrite getStateSave_armed.
  eexists. by repeat split.
Qed.

(** X16.  The first outcome of a save stands: once the promise is
    resolved or rejected, nothing the channel delivers later changes
    it. *)
Theorem getStateSave_first_outcome_stands
    (botProcess : option ChildProcess) (events later : list event)
    (Hsettled : result (deliver events (getStateSave botProcess)) <> Pending) :
  result (deliver (events ++ later) (getStateSave botProcess))
    = result (deliver events (getStateSave botProcess)).
Proof. rewrite deliver_app. by apply deliver_settled. Qed.

Lemma getStateSave_first_outcome_stands_witness :
  result (deliver [Ev_message (Message "state-save" (Some ∅))]
            (getStateSave (Some (mkProcess false false [])))) <> Pending /\
  result (deliver ([Ev_message (Message "state-save" (Some ∅))]
                     ++ [Ev_error (Fault "exit"); Ev_message (Message "state-load" None)])
            (getStateSave (Some (mkProcess false false []))))
    = result (deliver [Ev_message (Message "state-save" (Some ∅))]
                (getStateSave (Some (mkProcess false false [])))).
Proof.
  assert (H : result (deliver [Ev_message (Message "state-save" (Some ∅))]
                        (getStateSave (Some (mkProcess false false [])))) <> Pending)
    by discriminate.
  split; [exact H |].
  apply (getStateSave_first_outcome_stands _ _ _ H).
Defined.

End SaveProtocolExtras.

(** ** The command line *)

Section CommandLine.

Lemma splitArgs_loop_spec (rest : list string) (i : nat) (acc : list string) :
  exists taken left,
    rest = taken ++ left /\
    Cli.splitArgs_loop rest i acc = (acc ++ taken, i + length taken) /\
    Forall (fun arg => Cli.startsWith arg "-" = false) taken /\
    match left with
    | [] => True
    | arg :: _ => Cli.startsWith arg "-" = true
    end.
Proof.
  revert i acc. induction rest as [|arg rest IH]; intros i acc.
  - exists [], []. simpl. rewrite app_nil_r, Nat.add_0_r. by repeat split.
  - simpl. destruct (Cli.startsWith arg "-") eqn:Hdash.
    + exists [], (arg :: rest). simpl. rewrite app_nil_r, Nat.add_0_r. by repeat split.
    + destruct (IH (S i) (acc ++ [arg])) as (taken & left & -> & Hloop & Hall & Hleft).
      exists (arg :: taken), left. rewrite Hloop, <- app_assoc. simpl.
      split; [reflexivity |]. split; [f_equal; lia |]. split; [by constructor | exact Hleft].
Qed.

(** X17.  [splitArgs] cuts the arguments in two at the first one that
    starts with a dash: the two parts put together are the arguments,
    no positional argument starts with a dash, and the options, if any,
    start with one that does. *)
Theorem splitArgs_cuts_at_first_dash (args : list string) :
  (Cli.splitArgs args).1 ++ (Cli.splitArgs args).2 = args /\
  Forall (fun arg => Cli.startsWith arg "-" = false) (Cli.splitArgs args).1 /\
  match (Cli.splitArgs args).2 with
  | [] => True
  | arg :: _ => Cli.startsWith arg "-" = true
  end.
Proof.
  unfold Cli.splitArgs.
  destruct (splitArgs_loop_spec args 0 []) as (taken & left & -> & Hloop & Hall & Hleft).
  rewrite Hloop. simpl. rewrite drop_app_length. by repeat split.
Qed.

(** Whatever holds of the empty object and is kept by storing, under the
    key of a declared option, [true] or a next argument that counts as a
    value, holds of what [parseOptions] returns. *)
Lemma parseOptions_loop_keeps (P : gmap string Cli.option_value -> Prop)
    (_options : list Cli.Option) :
  (forall options option stored,
     P options -> In option _options ->
     match stored with
     | Cli.Given nextArg => Cli.is_value nextArg = true
     | Cli.Flag => True
     end ->
     P (<[Cli.slice 2 (Cli.name option) := stored]> options)) ->
  forall n args options, length args <= n ->
    P options -> P (Cli.parseOptions_loop _options args options).
Proof.
  intros Hstore.
  assert (Hstore' : forall options option stored,
            P options -> In option _options ->
            match stored with
            | Cli.Given nextArg => Cli.is_value nextArg = true
            | Cli.Flag => True
            end ->
            P (Cli.store (Cli.slice 2 (Cli.name option)) stored options)).
  { intros options option stored HP Hin Hstored. unfold Cli.store.
    destruct (String.eqb _ _); [exact HP | by apply Hstore]. }
  induction n as [|n IH]; intros args options Hlen HP.
  - destruct args; [exact HP | simpl in Hlen; lia].
  - destruct args as [|arg rest]; [exact HP |]. simpl in Hlen.
    cbn [Cli.parseOptions_loop].
    destruct (Cli.startsWith arg "--").
    + destruct (List.find _ _options) as [option|] eqn:Hfind; [| apply IH; [lia | exact HP]].
      apply find_some in Hfind as [Hin Hname]. apply String.eqb_eq in Hname as <-.
      destruct rest as [|nextArg rest'].
      * apply IH; [simpl; lia |]. by apply Hstore'.
      * destruct (Cli.is_value nextArg) eqn:Hvalue.
        -- apply IH; [simpl in *; lia |]. by apply Hstore'.
        -- apply IH; [simpl in *; lia |]. by apply Hstore'.
    + destruct (Cli.startsWith arg "-"); [| apply IH; [lia | exact HP]].
      destruct (List.find _ _options) as [option|] eqn:Hfind; [| apply IH; [lia | exact HP]].
      apply find_some in Hfind as [Hin _].
      destruct rest as [|nextArg rest'].
      * apply IH; [simpl; lia |]. by apply Hstore'.
      * destruct (Cli.is_value nextArg) eqn:Hvalue.
        -- apply IH; [simpl in *; lia |]. by apply Hstore'.
        -- apply IH; [simpl in *; lia |]. by apply Hstore'.
Qed.

(** X18.  [parseOptions] reports declared options only: every key of
    its result is the long name of a declared option without its first
    two characters, under whichever form, long or alias, it was
    given. *)
Theorem parseOptions_reports_declared_options
    (_options : list Cli.Option) (args : list string) (key : string) :
  is_Some (Cli.parseOptions _options args !! key) ->
  exists option, In option _options /\ key = Cli.slice 2 (Cli.name option).
Proof.
  unfold Cli.parseOptions. revert key.
  apply (parseOptions_loop_keeps
           (fun options => forall key, is_Some (options !! key) ->
              exists option, In option _options /\ key = Cli.slice 2 (Cli.name option))
           _options) with (n := length args); [| lia |].
  - intros options option stored HP Hin _ key Hkey.
    destruct (decide (Cli.slice 2 (Cli.name option) = key)) as [<-|Hne].
    + by exists option.
    + rewrite lookup_insert_ne in Hkey by done. by apply HP.
  - intros key Hkey. rewrite lookup_empty in Hkey. by destruct Hkey.
Qed.

Lemma parseOptions_reports_declared_options_witness :
  is_Some (Cli.parseOptions [Cli.mkOption "-p" "--port" "Port to listen on"]
             ["-p"; "3000"] !! "port") /\
  exists option,
    In option [Cli.mkOption "-p" "--port" "Port to listen on"] /\
    "port" = Cli.slice 2 (Cli.name option).
Proof.
  assert (H : is_Some (Cli.parseOptions [Cli.mkOption "-p" "--port" "Port to listen on"]
                         ["-p"; "3000"] !! "port"))
    by (by exists (Cli.Given "3000")).
  split; [exact H |].
  apply (parseOptions_reports_declared_options _ _ _ H).
Defined.

(** X19.  A value [parseOptions] reports for an option is never the
    empty string and never starts with a dash: such a next argument is
    left for the next round and the option is reported as [true]. *)
Theorem parseOptions_values_are_not_flags
    (_options : list Cli.Option) (args : list string) (key value : string) :
  Cli.parseOptions _options args !! key = Some (Cli.Given value) ->
  value <> "" /\ Cli.startsWith value "-" = false.
Proof.
  unfold Cli.parseOptions. revert key value.
  apply (parseOptions_loop_keeps
           (fun options => forall key value, options !! key = Some (Cli.Given value) ->
              value <> "" /\ Cli.startsWith value "-" = false)
           _options) with (n := length args); [| lia |].
  - intros options option stored HP _ Hstored key value Hkey.
    destruct (decide (Cli.slice 2 (Cli.name option) = key)) as [<-|Hne].
    + rewrite lookup_insert_eq in Hkey. injection Hkey as ->.
      unfold Cli.is_value in Hstored. apply andb_true_iff in Hstored as [Hne Hdash].
      apply negb_true_iff in Hne, Hdash. apply String.eqb_neq in Hne. by split.
    + rewrite lookup_insert_ne in Hkey by done. by eapply HP.
  - intros key value Hkey. by rewrite lookup_empty in Hkey.
Qed.

Lemma parseOptions_values_are_not_flags_witness :
  Cli.parseOptions [Cli.mkOption "-p" "--port" "Port to listen on";
                    Cli.mkOption "-v" "--verbose" "Print more"]
    ["--port"; "3000"; "-v"; "-x"] !! "port" = Some (Cli.Given "3000") /\
  "3000" <> "" /\ Cli.startsWith "3000" "-" = false.
Proof.
  assert (H : Cli.parseOptions [Cli.mkOption "-p" "--port" "Port to listen on";
                                Cli.mkOption "-v" "--verbose" "Print more"]
                ["--port"; "3000"; "-v"; "-x"] !! "port" = Some (Cli.Given "3000"))
    by (vm_compute; reflexivity).
  split; [exact H |].
  apply (parseOptions_values_are_not_flags _ _ _ _ H).
Defined.

End CommandLine.

(** ** The help command *)

Section HelpCommand.

(** X20.  The help embed has one field for each command of the manifest,
    in the order of the manifest, and a closing field; no field has an
    empty name or an empty value, whether a command has a description,
    an empty one or none. *)
Theorem help_fields_are_filled (commands : list (string * option string)) :
  length (Help.fields commands) = S (length commands) /\
  (Help.name <$> take (length commands) (Help.fields commands))
    = (fun command => "/" +:+ command.1) <$> commands /\
  Forall (fun field => Help.name field <> "" /\ Help.value field <> "")
    (Help.fields commands).
Proof.
  unfold Help.fields. split; [| split].
  - rewrite length_app, length_map. simpl. lia.
  - rewrite <- (length_map (fun '(command, description) =>
        Help.mkField ("/" +:+ command)
          (Help.or_else description "No description provided.") false) commands) at 1.
    rewrite take_app_length.
    induction commands as [|[command description] commands IH]; [reflexivity |].
    cbn [map]. rewrite !fmap_cons. f_equal. exact IH.
  - apply Forall_app. split.
    + apply Forall_forall. intros field Hfield.
      apply list_elem_of_In, in_map_iff in Hfield as [[command description] [<- _]].
      simpl. split; [discriminate |].
      by destruct description as [[|c text]|].
    + constructor; [| constructor]. by split.
Qed.

End HelpCommand.

(** ** The second argument of the sanitizer *)

Section SanitizerFlag.

(** X21.  A caller that passes a [warned] object whose flag is already
    set gets no warning at all: the flag stays set and the logger is not
    called, whatever the value holds and whether or not the call
    throws. *)
Theorem removeInstances_in_silenced (v : value) (log : list value) :
  (removeInstances_in v (SanState true log)).2 = SanState true log.
Proof.
  destruct (removeInstances_in_at_most_one_warning v (SanState true log))
    as [H|[Hwarned _]]; [exact H | discriminate Hwarned].
Qed.

End SanitizerFlag.
